(** * usrse-python: the [Result] and [Client] classes of [usrse/main/client.py]

    A shallow embedding of [src/usrse/main/client.py].  Python objects that
    are shared by reference (the list of records and every record dict)
    live in an explicit heap; everything the methods do to the outside
    (logging, the terminal, the random generator, files, the console, the
    HTTP server) is a field of the [world] the methods are run in.  Methods
    are computations in a state-and-exception monad over that world. *)

From Stdlib Require Import ZArith String Ascii List Lia Permutation.
From stdpp Require Import gmap strings list fin_maps pretty.

Local Open Scope string_scope.
Local Open Scope Z_scope.

(** ** Python dictionaries

    A [dict] keeps its keys in insertion order; assigning to a key that is
    present replaces the value where it stands, assigning to a new key
    appends it. *)

Module Dict.

Definition t (V : Type) : Type := list (string * V).

Fixpoint get {V} (k : string) (d : t V) : option V :=
  match d with
  | [] => None
  | (k', v) :: d' => if String.eqb k k' then Some v else get k d'
  end.

Definition mem {V} (k : string) (d : t V) : bool :=
  match get k d with Some _ => true | None => false end.

Fixpoint set {V} (k : string) (v : V) (d : t V) : t V :=
  match d with
  | [] => [(k, v)]
  | (k', v') :: d' =>
      if String.eqb k k' then (k', v) :: d' else (k', v') :: set k v d'
  end.

Definition keys {V} (d : t V) : list string := map fst d.

Definition values {V} (d : t V) : list V := map snd d.

End Dict.

(** [x in xs] for a Python list of strings. *)
Definition py_in (x : string) (xs : list string) : bool :=
  existsb (String.eqb x) xs.

(** ** Heap objects and the world *)

Definition loc := nat.

Inductive obj :=
| ODict (d : Dict.t string)
| OList (l : list loc).

(** A value handed to [Result(...)]: [None] or a reference. *)
Inductive pyval :=
| PyNone
| PyRef (l : loc).

Inductive exn :=
| IndexError
| KeyError (k : string)
| ZeroDivisionError
| AttributeError (cls attr : string)
| TypeError
| OSError
| SystemExit (msg : string)
(** [rich.errors.MarkupError]: a text that is not well-formed markup *)
| MarkupError
(** not a Python exception: a [while] loop of the model used up its fuel *)
| Unfinished.

Inductive level := INFO | WARNING | ERROR.

(** A [rich] table, as far as the two renderers touch it. *)
Record Column := {
  header : string;
  style : string;
  header_style : string
}.

Record Table := {
  title_of : option string;
  caption : option string;
  columns_of : list Column;
  rows_of : list (list string);
  show_footer : bool;
  row_styles : list string;
  border_style : option string;
  box : string;
  pad_edge : bool
}.

(** A JSON array of records. *)
Definition json : Type := list (Dict.t string).

(** What [requests.get] returns: the status, the body text, and the body
    parsed as JSON, [None] for a JSON [null]. *)
Record Response := {
  status_code : Z;
  text : string;
  json_body : option json
}.

Record world := {
  heap : gmap loc obj;
  log : list (level * string);
  (** [os.get_terminal_size().columns], or [None] when it raises [OSError] *)
  terminal : option nat;
  (** the order in which a [set] built by adding the given keys one by one
      is iterated: it depends on the hash seed of the process *)
  hash_order : list string -> list string;
  (** the successive results of [random.choice(range(255))] *)
  rng : nat -> nat;
  rng_pos : nat;
  (** a file is kept as the JSON value its text denotes *)
  files : gmap string json;
  writable : string -> bool;
  console : list Table;
  (** seconds slept, in units of [pause] *)
  slept : nat;
  http : string -> Response;
  (** what [rich] raises when it renders the table, if it raises: it reads
      the title, the caption, the headers and the cells as console markup
      and raises [MarkupError] on a closing tag that closes nothing *)
  render_error : Table -> option exn;
  (** [str.capitalize] of the interpreter, which knows the letters of every
      alphabet *)
  str_capitalize : string -> string
}.

Definition set_heap (h : gmap loc obj) (w : world) : world :=
  {| heap := h; log := log w; terminal := terminal w;
     hash_order := hash_order w; rng := rng w; rng_pos := rng_pos w;
     files := files w; writable := writable w; console := console w;
     slept := slept w;
     http := http w;
     render_error := render_error w; str_capitalize := str_capitalize w |}.

Definition add_log (l : level) (msg : string) (w : world) : world :=
  {| heap := heap w; log := log w ++ [(l, msg)]; terminal := terminal w;
     hash_order := hash_order w; rng := rng w; rng_pos := rng_pos w;
     files := files w; writable := writable w; console := console w;
     slept := slept w;
     http := http w;
     render_error := render_error w; str_capitalize := str_capitalize w |}.

Definition advance_rng (w : world) : world :=
  {| heap := heap w; log := log w; terminal := terminal w;
     hash_order := hash_order w; rng := rng w; rng_pos := S (rng_pos w);
     files := files w; writable := writable w; console := console w;
     slept := slept w;
     http := http w;
     render_error := render_error w; str_capitalize := str_capitalize w |}.

Definition set_files (f : gmap string json) (w : world) : world :=
  {| heap := heap w; log := log w; terminal := terminal w;
     hash_order := hash_order w; rng := rng w; rng_pos := rng_pos w;
     files := f; writable := writable w; console := console w;
     slept := slept w;
     http := http w;
     render_error := render_error w; str_capitalize := str_capitalize w |}.

Definition add_console (t : Table) (w : world) : world :=
  {| heap := heap w; log := log w; terminal := terminal w;
     hash_order := hash_order w; rng := rng w; rng_pos := rng_pos w;
     files := files w; writable := writable w;
     console := console w ++ [t]; slept := slept w;
     http := http w;
     render_error := render_error w; str_capitalize := str_capitalize w |}.

Definition clear_console (w : world) : world :=
  {| heap := heap w; log := log w; terminal := terminal w;
     hash_order := hash_order w; rng := rng w; rng_pos := rng_pos w;
     files := files w; writable := writable w; console := [];
     slept := slept w; http := http w;
     render_error := render_error w; str_capitalize := str_capitalize w |}.

Definition add_sleep (n : nat) (w : world) : world :=
  {| heap := heap w; log := log w; terminal := terminal w;
     hash_order := hash_order w; rng := rng w; rng_pos := rng_pos w;
     files := files w; writable := writable w; console := console w;
     slept := (slept w + n)%nat;
     http := http w;
     render_error := render_error w; str_capitalize := str_capitalize w |}.

(** ** The monad: a world in, a value or an exception and a world out *)

Inductive outcome (A : Type) :=
| Ok (a : A)
| Raise (e : exn).
Arguments Ok {A} a.
Arguments Raise {A} e.

Definition M (A : Type) : Type := world -> outcome A * world.

Definition ret {A} (a : A) : M A := fun w => (Ok a, w).

Definition raise {A} (e : exn) : M A := fun w => (Raise e, w).

Definition bind {A B} (m : M A) (k : A -> M B) : M B :=
  fun w =>
    match m w with
    | (Ok a, w') => k a w'
    | (Raise e, w') => (Raise e, w')
    end.

Declare Scope py_scope.
Delimit Scope py_scope with py.
Notation "x <- m ;; k" := (bind m (fun x => k))
  (at level 100, m at next level, right associativity) : py_scope.
Notation "m ;;; k" := (bind m (fun _ => k))
  (at level 100, right associativity) : py_scope.
Local Open Scope py_scope.

Fixpoint for_each {A} (xs : list A) (body : A -> M unit) : M unit :=
  match xs with
  | [] => ret tt
  | x :: xs' => body x ;;; for_each xs' body
  end.

Fixpoint fold_each {A S} (xs : list A) (body : S -> A -> M S) (s : S) : M S :=
  match xs with
  | [] => ret s
  | x :: xs' => s' <- body s x ;; fold_each xs' body s'
  end.

Fixpoint map_each {A B} (xs : list A) (body : A -> M B) : M (list B) :=
  match xs with
  | [] => ret []
  | x :: xs' => y <- body x ;; ys <- map_each xs' body ;; ret (y :: ys)
  end.

Definition get_heap : M (gmap loc obj) := fun w => (Ok (heap w), w).

Definition store (l : loc) (o : obj) : M unit :=
  fun w => (Ok tt, set_heap (<[l := o]> (heap w)) w).

Definition alloc (o : obj) : M loc :=
  fun w =>
    let l := fresh (dom (heap w)) in
    (Ok l, set_heap (<[l := o]> (heap w)) w).

(** A reference that is not in the heap does not exist in Python; the model
    answers [TypeError], as it does for an object of the wrong kind. *)
Definition load (l : loc) : M obj :=
  fun w =>
    match heap w !! l with
    | Some o => (Ok o, w)
    | None => (Raise TypeError, w)
    end.

Definition load_dict (l : loc) : M (Dict.t string) :=
  o <- load l ;;
  match o with
  | ODict d => ret d
  | OList _ => raise TypeError
  end.

(** Modelled from the spec: [usrse.logger] is not in this file;
    [logger.info] and [logger.warning] report a message and the command
    goes on. *)
Definition logger (l : level) (msg : string) : M unit :=
  fun w => (Ok tt, add_log l msg w).

Definition try_except {A} (m : M A) (caught : exn -> bool) (handler : M A)
  : M A :=
  fun w =>
    match m w with
    | (Raise e, w') => if caught e then handler w' else (Raise e, w')
    | r => r
    end.

(** ** Strings and numbers as Python has them *)

(** [len(xs)] as a Python integer. *)
Definition len {A} (xs : list A) : Z := Z.of_nat (List.length xs).

Definition str_len (s : string) : Z := Z.of_nat (String.length s).

(** A string is true when it is not empty. *)
Definition str_truthy (s : string) : bool :=
  match s with
  | EmptyString => false
  | String _ _ => true
  end.

Fixpoint str_take (n : nat) (s : string) : string :=
  match n, s with
  | S n', String a s' => String a (str_take n' s')
  | _, _ => EmptyString
  end.

(** [s[:k]]: the first [k] characters when [k] is not negative, all but the
    last [-k] characters when it is. *)
Definition py_slice_to (k : Z) (s : string) : string :=
  if 0 <=? k then str_take (Z.to_nat k) s
  else str_take (Z.to_nat (str_len s + k)) s.

(** [int(a / b)]: true division, then truncation towards zero.  The
    quotient of two integers of the size of a terminal width is computed
    exactly enough by the floating-point division for the truncation to be
    that of the exact quotient. *)
Definition int_div (a b : Z) : M Z :=
  if b =? 0 then raise ZeroDivisionError else ret (Z.quot a b).

Definition upper (a : ascii) : ascii :=
  let n := nat_of_ascii a in
  if ((97 <=? n) && (n <=? 122))%nat then ascii_of_nat (n - 32) else a.

Definition lower (a : ascii) : ascii :=
  let n := nat_of_ascii a in
  if ((65 <=? n) && (n <=? 90))%nat then ascii_of_nat (n + 32) else a.

Fixpoint str_lower (s : string) : string :=
  match s with
  | EmptyString => EmptyString
  | String a s' => String (lower a) (str_lower s')
  end.

(** What [s.capitalize()] is on ASCII text: the first letter upper case,
    the others lower case.  The renderers take the [str.capitalize] of the
    world; this one is that of the worlds of the examples, whose column
    names are ASCII. *)
Definition ascii_capitalize (s : string) : string :=
  match s with
  | EmptyString => EmptyString
  | String a s' => String (upper a) (str_lower s')
  end.

(** ** Endpoints

    The [Endpoint] classes are in [usrse/main/endpoints.py]; this file uses
    their attributes [url], [title], [emoji], [skip_list], [truncate_list]
    and their method [order], which are taken as they come.  [order] gets
    the heap and a reference to the data and answers the heap it leaves and
    a reference to the ordered data. *)

Record Endpoint := {
  url : string;
  title : string;
  emoji : string;
  skip_list : list string;
  truncate_list : list string;
  order : gmap loc obj -> loc -> gmap loc obj * loc
}.

Definition call_order (ep : Endpoint) (d : loc) : M loc :=
  fun w => let '(h', d') := order ep (heap w) d in (Ok d', set_heap h' w).

(** ** class Result *)

Record Result := {
  endpoint : Endpoint;
  data : loc;
  max_widths : Dict.t nat
}.

Definition set_max_widths (mw : Dict.t nat) (self : Result) : Result :=
  {| endpoint := endpoint self; data := data self; max_widths := mw |}.

(** Truth value of the [data] argument: [None], an empty list and an empty
    dict are false. *)
Definition truthy (v : pyval) : M bool :=
  match v with
  | PyNone => ret false
  | PyRef l =>
      o <- load l ;;
      match o with
      | ODict [] | OList [] => ret false
      | _ => ret true
      end
  end.

(** [for entry in self.data]: the elements of the list.  After
    [data = data or {}] the data can be the empty dict, which iterates over
    nothing; a dict with keys is not a sequence of records. *)
Definition iter_records (d : loc) : M (list loc) :=
  o <- load d ;;
  match o with
  | OList es => ret es
  | ODict [] => ret []
  | ODict (_ :: _) => raise TypeError
  end.

(** Lines 80-92: the body of the inner loop of [ensure_complete], for one
    [entry] and one [field]; [mw] is [self.max_widths]. *)
Definition ensure_field (tl : list string) (entry : loc)
    (mw : Dict.t nat) (field : string) : M (Dict.t nat) :=
  d <- load_dict entry ;;
  (if Dict.mem field d then ret tt
   else store entry (ODict (Dict.set field "" d))) ;;;
  if py_in field tl then
    d' <- load_dict entry ;;
    match Dict.get field d' with
    | None => raise (KeyError field)
    | Some v =>
        let n := String.length v in
        match Dict.get field mw with
        | None => ret (Dict.set field n mw)
        | Some m =>
            if (m <? n)%nat then ret (Dict.set field n mw) else ret mw
        end
    end
  else ret mw.

Definition set_iteration (added : list string) : M (list string) :=
  fun w => (Ok (hash_order w added), w).

Definition ensure_complete (self : Result) : M Result :=
  entries <- iter_records (data self) ;;
  added <- map_each entries
             (fun entry => d <- load_dict entry ;; ret (Dict.keys d)) ;;
  fields <- set_iteration (concat added) ;;
  mw <- fold_each entries
          (fun mw entry =>
             fold_each fields
               (ensure_field (truncate_list (endpoint self)) entry) mw)
          (max_widths self) ;;
  ret (set_max_widths mw self).

(** [Result.__init__] *)
Definition Result_init (data0 : pyval) (ep : Endpoint) : M Result :=
  t <- truthy data0 ;;
  d <- match data0 with
       | PyRef l => if t then ret l else alloc (ODict [])
       | PyNone => alloc (ODict [])
       end ;;
  d' <- call_order ep d ;;
  ensure_complete {| endpoint := ep; data := d'; max_widths := [] |}.

Definition get_terminal_size : M nat :=
  fun w =>
    match terminal w with
    | Some c => (Ok c, w)
    | None => (Raise OSError, w)
    end.

Definition is_OSError (e : exn) : bool :=
  match e with OSError => true | _ => false end.

Definition too_small : string := "Terminal is too small to correctly render!".

Definition available_width (self : Result) (columns : list string) : M Z :=
  width <- try_except (c <- get_terminal_size ;; ret (Z.of_nat c))
             is_OSError (ret 120) ;;
  column_width <- int_div width (len columns) ;;
  let updated :=
    fold_left (fun updated kv => updated - Z.of_nat (snd kv))
      (max_widths self) width in
  if updated <? 0 then
    logger WARNING too_small ;;; ret column_width
  else
    int_div updated (len columns - len (max_widths self)).

Definition to_dict (self : Result) : loc := data self.

(** The attributes of a [Result]: the three set by [__init__] and the
    methods and the property of the class (the names every object has, all
    of the form [__x__], are left out).  Any other name raises
    [AttributeError]. *)
Inductive attr :=
| AEndpoint (e : Endpoint)
| AData (l : loc)
| AMaxWidths (mw : Dict.t nat)
| AMember (name : string).

Definition Result_members : list string :=
  ["print_json"; "available_width"; "ensure_complete"; "to_dict"; "save";
   "color"; "table_columns"; "table_rows"; "table"; "table_live"].

Definition Result_getattr (self : Result) (name : string) : M attr :=
  if String.eqb name "endpoint" then ret (AEndpoint (endpoint self))
  else if String.eqb name "data" then ret (AData (data self))
  else if String.eqb name "max_widths" then ret (AMaxWidths (max_widths self))
  else if py_in name Result_members then ret (AMember name)
  else raise (AttributeError "Result" name).

(** [x or "data"] under [%s], for an attribute [x]. *)
Definition attr_or_data (a : attr) : string :=
  match a with
  | AMember name => "<" ++ name ++ ">"
  | AMaxWidths [] => "data"
  | _ => "<object>"
  end.

(** Modelled from the spec: [usrse.utils.write_json], which is not in this
    file, serializes the data as JSON to the path, overwriting the file, and
    fails with an I/O error when the path is not writable. *)
Definition write_json (d : loc) (outfile : string) : M unit :=
  entries <- iter_records d ;;
  records <- map_each entries load_dict ;;
  fun w =>
    if writable w outfile
    then (Ok tt, set_files (<[outfile := records]> (files w)) w)
    else (Raise OSError, w).

Definition save (self : Result) (outfile : string) : M unit :=
  t <- Result_getattr self "title" ;;
  logger INFO ("Saving " ++ attr_or_data t ++ " to " ++ outfile ++ "...") ;;;
  write_json (data self) outfile.

(** The [color] property. *)
Definition color (self : Result) : M string :=
  fun w =>
    let n := (rng w (rng_pos w) mod 255)%nat in
    (Ok ("color(" ++ pretty n ++ ")"), advance_rng w).

Definition table_columns (self : Result) : M (list string) :=
  o <- load (data self) ;;
  first <- match o with
           | OList (e :: _) => ret e
           | OList [] => raise IndexError
           | ODict _ => raise (KeyError "0")
           end ;;
  d <- load_dict first ;;
  ret (fold_left
         (fun columns column =>
            if py_in column (skip_list (endpoint self)) then columns
            else (columns ++ [column])%list)
         (Dict.keys d) []).

(** Lines 139-146: one cell of a row. *)
Definition parse_cell (tl : list string) (column_width : Z)
    (column content : string) : string :=
  if str_truthy content
     && (str_len content >? column_width)
     && negb (py_in column tl)
  then py_slice_to column_width content ++ "..."
  else content.

Definition parse_row (self : Result) (columns : list string)
    (column_width : Z) (row : loc) : M (list string) :=
  map_each columns
    (fun column =>
       d <- load_dict row ;;
       match Dict.get column d with
       | None => raise (KeyError column)
       | Some content =>
           ret (parse_cell (truncate_list (endpoint self))
                  column_width column content)
       end).

(** A generator run to its end: what it yielded, and the exception that
    ended it, if one did. *)
Definition Gen (A : Type) : Type := world -> (list A * option exn) * world.

(** The loop of [table_rows] from index [i] on.  [limit] is a Python
    integer; [0] (like [None]) is false and switches the limit off. *)
Fixpoint yield_rows (self : Result) (columns : list string) (limit : Z)
    (column_width : Z) (i : Z) (entries : list loc) : Gen (list string) :=
  match entries with
  | [] => fun w => (([], None), w)
  | row :: rest =>
      if negb (limit =? 0) && (i >? limit) then fun w => (([], None), w)
      else
        fun w =>
          match parse_row self columns column_width row w with
          | (Ok parsed, w') =>
              let '((ys, e), w'') :=
                yield_rows self columns limit column_width (i + 1) rest w' in
              ((parsed :: ys, e), w'')
          | (Raise e, w') => (([], Some e), w')
          end
  end.

Definition table_rows (self : Result) (columns : list string) (limit : Z)
  : Gen (list string) :=
  fun w =>
    match available_width self columns w with
    | (Ok column_width, w') =>
        match iter_records (data self) w' with
        | (Ok entries, w'') =>
            yield_rows self columns limit column_width 0 entries w''
        | (Raise e, w'') => (([], Some e), w'')
        end
    | (Raise e, w') => (([], Some e), w')
    end.

(** [for x in gen: s = body(s, x)], the exception of the generator, if any,
    coming after the rows it yielded. *)
Definition for_gen {A S} (g : Gen A) (body : S -> A -> M S) (s : S) : M S :=
  fun w =>
    match g w with
    | ((xs, e), w') =>
        match fold_each xs body s w' with
        | (Ok s', w'') =>
            match e with
            | None => (Ok s', w'')
            | Some e => (Raise e, w'')
            end
        | r => r
        end
    end.

(** *** The renderers *)

Definition new_table (t : option string) : Table :=
  {| title_of := t; caption := None; columns_of := []; rows_of := [];
     show_footer := false; row_styles := []; border_style := None;
     box := "HEAVY_HEAD"; pad_edge := true |}.

Definition add_column (h s : string) (t : Table) : Table :=
  {| title_of := title_of t; caption := caption t;
     columns_of := columns_of t
                   ++ [{| header := h; style := s; header_style := "" |}];
     rows_of := rows_of t; show_footer := show_footer t;
     row_styles := row_styles t; border_style := border_style t;
     box := box t; pad_edge := pad_edge t |}.

Definition add_row (r : list string) (t : Table) : Table :=
  {| title_of := title_of t; caption := caption t;
     columns_of := columns_of t; rows_of := rows_of t ++ [r];
     show_footer := show_footer t; row_styles := row_styles t;
     border_style := border_style t; box := box t; pad_edge := pad_edge t |}.

Definition set_title (s : string) (t : Table) : Table :=
  {| title_of := Some s; caption := caption t;
     columns_of := columns_of t; rows_of := rows_of t;
     show_footer := show_footer t; row_styles := row_styles t;
     border_style := border_style t; box := box t; pad_edge := pad_edge t |}.

Definition set_caption (s : string) (t : Table) : Table :=
  {| title_of := title_of t; caption := Some s;
     columns_of := columns_of t; rows_of := rows_of t;
     show_footer := show_footer t; row_styles := row_styles t;
     border_style := border_style t; box := box t; pad_edge := pad_edge t |}.

Definition set_columns (cs : list Column) (t : Table) : Table :=
  {| title_of := title_of t; caption := caption t;
     columns_of := cs; rows_of := rows_of t;
     show_footer := show_footer t; row_styles := row_styles t;
     border_style := border_style t; box := box t; pad_edge := pad_edge t |}.

Definition set_look (footer : bool) (styles : list string)
    (border : option string) (b : string) (pad : bool) (t : Table) : Table :=
  {| title_of := title_of t; caption := caption t;
     columns_of := columns_of t; rows_of := rows_of t;
     show_footer := footer; row_styles := styles;
     border_style := border; box := b; pad_edge := pad |}.

Definition bold_header (c : Column) : Column :=
  {| header := header c; style := style c;
     header_style := "bold " ++ header_style c |}.

(** [console.print(table, justify="center")]: [rich] renders the whole
    table before it writes any of it; when the rendering raises, nothing is
    written. *)
Definition console_print (t : Table) : M unit :=
  fun w =>
    match render_error w t with
    | Some e => (Raise e, w)
    | None => (Ok tt, add_console t w)
    end.

(** Entering [with Live(table, ...)]: the table is rendered once, as it
    stands; a failure of that rendering is raised. *)
Definition live_start (t : Table) : M unit :=
  fun w =>
    match render_error w t with
    | Some e => (Raise e, w)
    | None => (Ok tt, w)
    end.

(** [column.capitalize()] *)
Definition py_capitalize (s : string) : M string :=
  fun w => (Ok (str_capitalize w s), w).

Definition console_clear : M unit :=
  fun w => (Ok tt, clear_console w).

Definition sleep (n : nat) : M unit :=
  fun w => (Ok tt, add_sleep n w).

(** The condition of [while not color or color in seen_colors]. *)
Definition draw_again (color0 : option string) (seen_colors : list string)
  : bool :=
  match color0 with
  | None => true
  | Some c => negb (str_truthy c) || py_in c seen_colors
  end.

Fixpoint while_color (fuel : nat) (self : Result)
    (seen_colors : list string) (color0 : option string) : M string :=
  if draw_again color0 seen_colors then
    match fuel with
    | O => raise Unfinished
    | S fuel' =>
        c <- color self ;;
        while_color fuel' self seen_colors (Some c)
    end
  else
    match color0 with
    | Some c => ret c
    | None => raise Unfinished
    end.

(** Lines 160-164 and 199-203: the loop that adds the columns.
    [seen_colors] is the list made empty before the loop; the loop does not
    assign to it or append to it. *)
Definition add_columns (fuel : nat) (self : Result)
    (seen_colors : list string) (columns : list string) (t : Table)
  : M Table :=
  fold_each columns
    (fun t column =>
       c <- while_color fuel self seen_colors None ;;
       h <- py_capitalize column ;;
       ret (add_column h c t))
    t.

Definition table (fuel : nat) (self : Result) (limit : Z) : M unit :=
  let t := new_table (Some (title (endpoint self))) in
  let seen_colors := [] in
  columns <- table_columns self ;;
  t <- add_columns fuel self seen_colors columns t ;;
  t <- for_gen (table_rows self columns limit)
         (fun t row => ret (add_row row t)) t ;;
  console_print t.

(** [with beat(length): body]: the body, then a pause of [length * pause]
    seconds, counted in units of [pause]. *)
Definition beat {A} (length : nat) (body : M A) : M A :=
  a <- body ;; sleep length ;;; ret a.

Definition caption_plain : string :=
  "the United States Research Software Engineer Association".

Definition caption_styled : string :=
  "the [b magenta not dim]United States Research Software Engineer Association[/]".

(** The animated table.  [Live] renders the table when the block is
    entered and when it is left; the frames its refresh thread draws in
    between are not kept, and the console holds the table as it stands at
    the end. *)
Definition table_live (fuel : nat) (self : Result) (limit : Z) : M unit :=
  console_clear ;;;
  let t := new_table None in
  let seen_colors := [] in
  live_start t ;;;
  columns <- table_columns self ;;
  t <- beat 10 (add_columns fuel self seen_colors columns t) ;;
  t <- beat 10 (ret (set_title (title (endpoint self)) t)) ;;
  t <- beat 10
         (let e := ":" ++ emoji (endpoint self) ++ ":" in
          let old := match title_of t with Some s => s | None => "None" end in
          ret (set_title ("[not italic]" ++ e ++ "[/] " ++ old
                          ++ " [not italic]" ++ e ++ "[/]") t)) ;;
  t <- beat 10 (ret (set_caption caption_plain t)) ;;
  t <- beat 10 (ret (set_caption caption_styled t)) ;;
  t <- for_gen (table_rows self columns limit)
         (fun t row => beat 10 (ret (add_row row t))) t ;;
  t <- beat 10 (ret (set_look true (row_styles t) (border_style t)
                       (box t) (pad_edge t) t)) ;;
  let t := set_columns (map bold_header (columns_of t)) t in
  t <- beat 10 (ret (set_look (show_footer t) ["none"; "dim"]
                       (border_style t) (box t) (pad_edge t) t)) ;;
  t <- beat 10 (ret (set_look (show_footer t) (row_styles t)
                       (Some "bright_yellow") "MINIMAL" (pad_edge t) t)) ;;
  t <- beat 10 (ret (set_look (show_footer t) (row_styles t)
                       (border_style t) (box t) false t)) ;;
  console_print t.

(** ** class Client *)

Record Client := {
  baseurl : string;
  quiet : bool
}.

Definition nl : string := String (ascii_of_nat 10) EmptyString.

Fixpoint join (sep : string) (xs : list string) : string :=
  match xs with
  | [] => ""
  | [x] => x
  | x :: xs' => x ++ sep ++ join sep xs'
  end.

(** The attributes of a [requests.Response].  Any other name raises
    [AttributeError]. *)
Inductive resp_attr :=
| RInt (z : Z)
| RStr (s : string)
| ROther (name : string).

Definition Response_members : list string :=
  ["content"; "json"; "headers"; "url"; "history"; "encoding"; "reason";
   "cookies"; "elapsed"; "request"; "raw"; "ok"; "is_redirect";
   "is_permanent_redirect"; "next"; "apparent_encoding"; "links";
   "iter_content"; "iter_lines"; "raise_for_status"; "close"].

Definition Response_getattr (r : Response) (name : string) : M resp_attr :=
  if String.eqb name "status_code" then ret (RInt (status_code r))
  else if String.eqb name "text" then ret (RStr (text r))
  else if py_in name Response_members then ret (ROther name)
  else raise (AttributeError "Response" name).

(** An attribute under [%s]. *)
Definition resp_str (a : resp_attr) : string :=
  match a with
  | RInt z => pretty z
  | RStr s => s
  | ROther name => "<" ++ name ++ ">"
  end.

Definition requests_get (u : string) : M Response :=
  fun w => (Ok (http w u), w).

(** [result.json()]: the parsed body, built of new objects. *)
Definition Response_json (r : Response) : M pyval :=
  match json_body r with
  | None => ret PyNone
  | Some records =>
      ls <- map_each records (fun d => alloc (ODict d)) ;;
      l <- alloc (OList ls) ;;
      ret (PyRef l)
  end.

Definition sys_exit {A} (msg : string) : M A := raise (SystemExit msg).

Section ClientGet.

(** [endpoints.register] and [endpoints.register_names], of
    [usrse/main/endpoints.py]: the constructors of the endpoints by name,
    each taking the base URL. *)
Variable register : Dict.t (string -> Endpoint).
Variable register_names : list string.

(** Modelled from the spec: [logger.exit], of [usrse/logger.py], reports
    the message and ends the command. *)
Definition logger_exit {A} (msg : string) : M A :=
  logger ERROR msg ;;; sys_exit msg.

Definition get (self : Client) (name : string) : M Result :=
  match Dict.get name register with
  | None =>
      logger_exit (name ++ " is not a known endpoint! Endpoints include:"
                   ++ nl ++ join nl register_names)
  | Some make =>
      let endpoint := make (baseurl self) in
      (if negb (quiet self) then logger INFO ("GET " ++ url endpoint)
       else ret tt) ;;;
      result <- requests_get (url endpoint) ;;
      (if negb (status_code result =? 200) then
         txt <- Response_getattr result "txt" ;;
         sys_exit ("Issue retrieving " ++ url endpoint ++ ":" ++ nl
                   ++ resp_str txt)
       else ret tt) ;;;
      d <- Response_json result ;;
      Result_init d endpoint
  end.

End ClientGet.

(** * Vocabulary of the statements *)

(** ** What [ensure_complete] does to one record *)

Definition fill_field (d : Dict.t string) (f : string) : Dict.t string :=
  if Dict.mem f d then d else Dict.set f "" d.

Definition fill (fields : list string) (d : Dict.t string) : Dict.t string :=
  fold_left fill_field fields d.

(** [k] is a key of one of the records [es] of the heap [h]. *)
Definition key_of_some (h : gmap loc obj) (es : list loc) (k : string) : Prop :=
  exists l d, l ∈ es /\ h !! l = Some (ODict d) /\ k ∈ Dict.keys d.

(** The sequence of records a reference stands for. *)
Definition seq_of (h : gmap loc obj) (d : loc) : option (list loc) :=
  match h !! d with
  | Some (OList es) => Some es
  | Some (ODict []) => Some []
  | _ => None
  end.

(** Iterating a set visits every key that was added, once. *)
Definition hash_ok (w : world) : Prop :=
  forall added,
    NoDup (hash_order w added)
    /\ forall k, k ∈ hash_order w added <-> k ∈ added.

(** Modelled from the spec: [Endpoint.order], of [usrse/main/endpoints.py],
    is a pure function imposing a display order on the raw records; it does
    not mutate.  The records it answers are the records it got, in some
    order, and every object of the heap is left as it was. *)
Definition order_ok (ep : Endpoint) : Prop :=
  forall h d es h' d',
    seq_of h d = Some es ->
    order ep h d = (h', d') ->
    (forall l o, h !! l = Some o -> h' !! l = Some o)
    /\ exists es', seq_of h' d' = Some es' /\ Permutation es es'.

(** The records of the argument of [Result(...)]: none for [None]. *)
Definition records_of (h : gmap loc obj) (data0 : pyval) (es : list loc)
  : Prop :=
  match data0 with
  | PyNone => es = []
  | PyRef inp => h !! inp = Some (OList es)
  end.

(** Every reference of [es] is a record of the heap. *)
Definition all_records (h : gmap loc obj) (es : list loc) : Prop :=
  forall l, l ∈ es -> exists d, h !! l = Some (ODict d).

(** ** Worlds and endpoints for the examples *)

(** An [order] that leaves the data as it is. *)
Definition keep_order (h : gmap loc obj) (d : loc) : gmap loc obj * loc :=
  (h, d).

Definition endpoint_of (skip truncate : list string) : Endpoint :=
  {| url := "https://us-rse.org/api/people.json"; title := "People";
     emoji := "sparkles"; skip_list := skip; truncate_list := truncate;
     order := keep_order |}.

Definition not_found : Response :=
  {| status_code := 404; text := "Not Found"; json_body := None |}.

(** A world with the given heap, terminal and random draws, where sets are
    iterated in the order of first insertion and the texts of the tables
    are plain ASCII words, which [rich] renders. *)
Definition world_of (h : gmap loc obj) (term : option nat)
    (draws : nat -> nat) : world :=
  {| heap := h; log := []; terminal := term; hash_order := remove_dups;
     rng := draws; rng_pos := 0; files := ∅; writable := fun _ => true;
     console := []; slept := 0; http := fun _ => not_found;
     render_error := fun _ => None; str_capitalize := ascii_capitalize |}.

(** The heap of the list [[{"name": "Alice", "role": "chair"},
    {"name": "Bob"}]] at reference [0]. *)
Definition heap_people : gmap loc obj :=
  <[0%nat := OList [1%nat; 2%nat]]>
    (<[1%nat := ODict [("name", "Alice"); ("role", "chair")]]>
       (<[2%nat := ODict [("name", "Bob")]]> ∅)).

(** The heap of the list [[{"a": "x", "b": "y", "c": "z"}]] at reference [0]. *)
Definition heap_abc : gmap loc obj :=
  <[0%nat := OList [1%nat]]>
    (<[1%nat := ODict [("a", "x"); ("b", "y"); ("c", "z")]]> ∅).

(** The heap of the list [[{"url": "http://x"}]] at reference [0]. *)
Definition heap_url : gmap loc obj :=
  <[0%nat := OList [1%nat]]> (<[1%nat := ODict [("url", "http://x")]]> ∅).

(** The heap of the empty list at reference [0]. *)
Definition heap_empty_list : gmap loc obj := <[0%nat := OList []]> ∅.

(** The surface width: the terminal width, or 120. *)
Definition surface_width (w : world) : Z :=
  match terminal w with Some c => Z.of_nat c | None => 120 end.

(** What is left of the surface width once the widths kept for the fields
    of [max_widths] are taken away: [updated] at line 61. *)
Definition remaining (self : Result) (w : world) : Z :=
  fold_left (fun updated kv => updated - Z.of_nat (snd kv))
    (max_widths self) (surface_width w).

(** An [order] that answers a new list, as [sorted] does. *)
Definition new_list_order (h : gmap loc obj) (d : loc) : gmap loc obj * loc :=
  let l := fresh (dom h) in
  (<[l := OList (match seq_of h d with Some es => es | None => [] end)]> h, l).

Definition endpoint_new_list : Endpoint :=
  {| url := "https://us-rse.org/api/people.json"; title := "People";
     emoji := "sparkles"; skip_list := []; truncate_list := [];
     order := new_list_order |}.

(** A registry with the one endpoint ["people"]. *)
Definition register_people : Dict.t (string -> Endpoint) :=
  [("people",
    fun base =>
      {| url := base ++ "/api/people.json"; title := "People";
         emoji := "sparkles"; skip_list := []; truncate_list := [];
         order := keep_order |})].

Definition client_example : Client :=
  {| baseurl := "https://us-rse.org"; quiet := false |}.

(** The row of the record at [l]: the cell of every column, in order. *)
Definition row_of (self : Result) (columns : list string) (cw : Z)
    (h : gmap loc obj) (l : loc) : list string :=
  match h !! l with
  | Some (ODict d) =>
      map (fun c =>
             parse_cell (truncate_list (endpoint self)) cw c
               (default "" (Dict.get c d)))
        columns
  | _ => []
  end.

(** Every record of [es] is in the heap and has all the [columns]. *)
Definition has_columns (h : gmap loc obj) (columns : list string)
    (es : list loc) : Prop :=
  forall l, l ∈ es ->
    exists d, h !! l = Some (ODict d)
              /\ forall c, c ∈ columns -> is_Some (Dict.get c d).


(** The list of the two people with all their fields, at reference [0]. *)
Definition heap_people_full : gmap loc obj :=
  <[0%nat := OList [1%nat; 2%nat]]>
    (<[1%nat := ODict [("name", "Alice"); ("role", "chair")]]>
       (<[2%nat := ODict [("name", "Bob"); ("role", "")]]> ∅)).

Definition result_people : Result :=
  {| endpoint := endpoint_of [] []; data := 0%nat; max_widths := [] |}.

(** ** What [ensure_complete] does to [max_widths] *)

(** The larger of a width seen so far, if any, and a new one. *)
Definition omax (o : option nat) (n : nat) : option nat :=
  Some (match o with None => n | Some m => Nat.max m n end).

(** [len(entry[g])] for the record [d], an absent field counting as empty. *)
Definition shown_width (d : Dict.t string) (g : string) : nat :=
  String.length (default "" (Dict.get g d)).

(** Lines 86-92 for the record [d'] as it stands once [f] is in it. *)
Definition track (tl : list string) (d' : Dict.t string) (mw : Dict.t nat)
    (f : string) : Dict.t nat :=
  if py_in f tl then
    match Dict.get f mw with
    | None => Dict.set f (shown_width d' f) mw
    | Some m =>
        if (m <? shown_width d' f)%nat then Dict.set f (shown_width d' f) mw
        else mw
    end
  else mw.

(** The inner loop on [max_widths], for one record. *)
Fixpoint track_fields (tl : list string) (fields : list string)
    (d : Dict.t string) (mw : Dict.t nat) : Dict.t nat :=
  match fields with
  | [] => mw
  | f :: fs =>
      track_fields tl fs (fill_field d f) (track tl (fill_field d f) mw f)
  end.

(** The width of the field [g] of the record at [l] once it is filled. *)
Definition width_at (fields : list string) (h : gmap loc obj) (l : loc)
    (g : string) : nat :=
  match h !! l with
  | Some (ODict d) => shown_width (fill fields d) g
  | _ => 0%nat
  end.

(** The columns that are not skipped, in order. *)
Definition not_skipped (ep : Endpoint) (keys : list string) : list string :=
  List.filter (fun c => negb (py_in c (skip_list ep))) keys.

(** ** The tables the renderers build *)

(** The world after [n] more draws of [random.choice]. *)
Fixpoint advance_by (n : nat) (w : world) : world :=
  match n with
  | O => w
  | S n' => advance_by n' (advance_rng w)
  end.

(** The color of the [i]-th draw from the world [w] on. *)
Definition drawn_color (w : world) (i : nat) : string :=
  "color(" ++ pretty (rng w (rng_pos w + i) mod 255)%nat ++ ")".

(** The columns of a table: a capitalized header and a drawn color each. *)
Definition drawn_columns (w : world) (columns : list string) : list Column :=
  imap (fun i column =>
          {| header := str_capitalize w column; style := drawn_color w i;
             header_style := "" |})
    columns.

(** The table that [table] prints. *)
Definition static_table (self : Result) (w : world) (columns : list string)
    (rows : list (list string)) : Table :=
  {| title_of := Some (title (endpoint self)); caption := None;
     columns_of := drawn_columns w columns; rows_of := rows;
     show_footer := false; row_styles := []; border_style := None;
     box := "HEAVY_HEAD"; pad_edge := true |}.

(** The table that [table_live] leaves on the console. *)
Definition live_table (self : Result) (w : world) (columns : list string)
    (rows : list (list string)) : Table :=
  {| title_of :=
       Some ("[not italic]" ++ (":" ++ emoji (endpoint self) ++ ":")
             ++ "[/] " ++ title (endpoint self)
             ++ " [not italic]" ++ (":" ++ emoji (endpoint self) ++ ":")
             ++ "[/]");
     caption := Some caption_styled;
     columns_of := map bold_header (drawn_columns w columns);
     rows_of := rows;
     show_footer := true; row_styles := ["none"; "dim"];
     border_style := Some "bright_yellow"; box := "MINIMAL";
     pad_edge := false |}.


Definition world_serving (r : Response) : world :=
  {| heap := ∅; log := []; terminal := None; hash_order := remove_dups;
     rng := fun _ => 0%nat; rng_pos := 0; files := ∅;
     writable := fun _ => true; console := []; slept := 0;
     http := fun _ => r;
     render_error := fun _ => None; str_capitalize := ascii_capitalize |}.

(** ** [Client.__init__], [__str__] and [__repr__] *)

(** [s.lstrip("/")] *)
Fixpoint lstrip_slash (s : string) : string :=
  match s with
  | String a s' => if Ascii.eqb a "/" then lstrip_slash s' else s
  | EmptyString => EmptyString
  end.

(** [s.rstrip("/")] *)
Fixpoint rstrip_slash (s : string) : string :=
  match s with
  | EmptyString => EmptyString
  | String a s' =>
      match rstrip_slash s' with
      | EmptyString =>
          if Ascii.eqb a "/" then EmptyString else String a EmptyString
      | r => String a r
      end
  end.

(** [s.strip("/")]: the slashes at both ends go. *)
Definition strip_slash (s : string) : string :=
  rstrip_slash (lstrip_slash s).

(** [Client(baseurl, quiet)]; [default_baseurl] is [defaults.baseurl], of
    [usrse/defaults.py]. *)
Definition Client_init (default_baseurl : string) (baseurl0 : option string)
    (quiet0 : bool) : Client :=
  {| baseurl :=
       strip_slash
         (match baseurl0 with
          | Some b => if str_truthy b then b else default_baseurl
          | None => default_baseurl
          end);
     quiet := quiet0 |}.

Definition Client_str (self : Client) : string := "[usrse-client]".

Definition Client_repr (self : Client) : string := Client_str self.

(** A server that answers an empty array to every request. *)
Definition found_nothing : Response :=
  {| status_code := 200; text := "[]"; json_body := Some [] |}.

(** A world like [world_of], but where [rich] refuses every table that has
    a row: the cells are taken to hold a closing tag that closes nothing. *)
Definition world_markup (h : gmap loc obj) : world :=
  {| heap := h; log := []; terminal := None; hash_order := remove_dups;
     rng := fun _ => 0%nat; rng_pos := 0; files := ∅;
     writable := fun _ => true; console := []; slept := 0;
     http := fun _ => not_found;
     render_error := fun t => match rows_of t with
                              | [] => None
                              | _ :: _ => Some MarkupError
                              end;
     str_capitalize := ascii_capitalize |}.

(** * Properties *)

(** ** Dictionaries *)

Section DictFacts.

Context {V : Type}.
Implicit Types (d : Dict.t V) (k f : string) (v : V).

Lemma get_Some_keys d k v : Dict.get k d = Some v -> k ∈ Dict.keys d.
Proof.
  induction d as [|[k' v'] d IH]; simpl; [discriminate|].
  destruct (String.eqb_spec k k') as [->|Hne]; intros H.
  - apply list_elem_of_here.
  - apply list_elem_of_further, IH, H.
Qed.

Lemma get_None_keys d k : Dict.get k d = None -> k ∉ Dict.keys d.
Proof.
  induction d as [|[k' v'] d IH]; simpl; intros H.
  - apply not_elem_of_nil.
  - destruct (String.eqb_spec k k') as [->|Hne]; [discriminate|].
    apply not_elem_of_cons; split; [exact Hne | apply IH, H].
Qed.

Lemma keys_get d k : k ∈ Dict.keys d -> is_Some (Dict.get k d).
Proof.
  intros Hin. destruct (Dict.get k d) eqn:E; [eauto|].
  apply get_None_keys in E. contradiction.
Qed.

Lemma mem_keys d k : Dict.mem k d = true <-> k ∈ Dict.keys d.
Proof.
  unfold Dict.mem. split.
  - destruct (Dict.get k d) eqn:E; [|discriminate].
    intros _. eapply get_Some_keys, E.
  - intros [v E]%keys_get. now rewrite E.
Qed.

Lemma keys_set d f v k :
  k ∈ Dict.keys (Dict.set f v d) <-> k = f \/ k ∈ Dict.keys d.
Proof.
  induction d as [|[k' v'] d IH]; simpl.
  - rewrite list_elem_of_singleton. split; [auto|].
    intros [H|H]; [exact H | now apply not_elem_of_nil in H].
  - destruct (String.eqb_spec f k') as [->|Hne]; simpl.
    + rewrite !elem_of_cons. tauto.
    + rewrite !elem_of_cons, IH. tauto.
Qed.

Lemma get_set_eq d f v : Dict.get f (Dict.set f v d) = Some v.
Proof.
  induction d as [|[k' v'] d IH]; simpl.
  - now rewrite String.eqb_refl.
  - destruct (String.eqb_spec f k') as [->|Hne]; simpl.
    + now rewrite String.eqb_refl.
    + destruct (String.eqb_spec f k'); [contradiction | exact IH].
Qed.

Lemma get_set_ne d f v k :
  k <> f -> Dict.get k (Dict.set f v d) = Dict.get k d.
Proof.
  intros Hne. induction d as [|[k' v'] d IH]; simpl.
  - destruct (String.eqb_spec k f); [contradiction | reflexivity].
  - destruct (String.eqb_spec f k') as [->|Hne']; simpl.
    + destruct (String.eqb_spec k k'); [contradiction | reflexivity].
    + now rewrite IH.
Qed.

End DictFacts.

Lemma py_in_elem x xs : py_in x xs = true <-> x ∈ xs.
Proof.
  unfold py_in. rewrite existsb_exists. split.
  - intros (y & Hin & ->%String.eqb_eq). now apply list_elem_of_In.
  - intros Hin. exists x. split; [now apply list_elem_of_In|].
    apply String.eqb_refl.
Qed.


Lemma keys_fill_field d f k :
  k ∈ Dict.keys (fill_field d f) <-> k ∈ Dict.keys d \/ k = f.
Proof.
  unfold fill_field. destruct (Dict.mem f d) eqn:E.
  - apply mem_keys in E. split; [auto|]. intros [H| ->]; assumption.
  - rewrite keys_set. tauto.
Qed.

Lemma keys_fill fields d k :
  k ∈ Dict.keys (fill fields d) <-> k ∈ Dict.keys d \/ k ∈ fields.
Proof.
  unfold fill. revert d. induction fields as [|f fields IH]; intros d; simpl.
  - split; [auto|]. intros [H|H]; [exact H | now apply not_elem_of_nil in H].
  - rewrite IH, keys_fill_field, elem_of_cons. tauto.
Qed.

Lemma get_fill_field_old d f k :
  k ∈ Dict.keys d -> Dict.get k (fill_field d f) = Dict.get k d.
Proof.
  intros Hin. unfold fill_field. destruct (Dict.mem f d) eqn:E; [reflexivity|].
  apply get_set_ne. intros ->. apply mem_keys in Hin. congruence.
Qed.

Lemma get_fill_old fields d k :
  k ∈ Dict.keys d -> Dict.get k (fill fields d) = Dict.get k d.
Proof.
  unfold fill. revert d. induction fields as [|f fields IH]; intros d Hin.
  - reflexivity.
  - simpl. rewrite IH.
    + now apply get_fill_field_old.
    + apply keys_fill_field. now left.
Qed.

Lemma get_fill_new fields d k :
  k ∉ Dict.keys d -> k ∈ fields -> Dict.get k (fill fields d) = Some "".
Proof.
  unfold fill. revert d. induction fields as [|f fields IH]; intros d Hout Hin.
  - now apply not_elem_of_nil in Hin.
  - simpl. destruct (decide (k = f)) as [->|Hne].
    + assert (E : Dict.get f (fill_field d f) = Some "").
      { unfold fill_field. destruct (Dict.mem f d) eqn:Em.
        - apply mem_keys in Em. contradiction.
        - apply get_set_eq. }
      fold (fill fields (fill_field d f)). rewrite get_fill_old; [exact E|].
      eapply get_Some_keys, E.
    + apply IH.
      * rewrite keys_fill_field. intros [H|H]; contradiction.
      * apply elem_of_cons in Hin. destruct Hin; [contradiction | assumption].
Qed.

Lemma fill_fixed fields d :
  (forall f, f ∈ fields -> f ∈ Dict.keys d) -> fill fields d = d.
Proof.
  unfold fill. induction fields as [|f fields IH]; intros H; [reflexivity|].
  simpl. assert (E : fill_field d f = d).
  { unfold fill_field. destruct (Dict.mem f d) eqn:Em; [reflexivity|].
    assert (Hin : f ∈ Dict.keys d) by (apply H, list_elem_of_here).
    apply mem_keys in Hin. congruence. }
  rewrite E. apply IH. intros g Hg. apply H. now apply list_elem_of_further.
Qed.

Lemma fill_idem fields d : fill fields (fill fields d) = fill fields d.
Proof.
  apply fill_fixed. intros f Hf. apply keys_fill. now right.
Qed.

(** ** Running the loops of [ensure_complete] *)

Lemma set_heap_id w : set_heap (heap w) w = w.
Proof. now destruct w. Qed.

Lemma load_dict_run w l d :
  heap w !! l = Some (ODict d) -> load_dict l w = (Ok d, w).
Proof. intros H. unfold load_dict, bind, load. now rewrite H. Qed.

Lemma ensure_field_run tl l mw f w d :
  heap w !! l = Some (ODict d) ->
  exists mw',
    ensure_field tl l mw f w
    = (Ok mw', set_heap (<[l := ODict (fill_field d f)]> (heap w)) w).
Proof.
  intros H. unfold ensure_field, bind. rewrite (load_dict_run _ _ _ H).
  unfold fill_field. destruct (Dict.mem f d) eqn:Em; simpl.
  - rewrite (insert_id _ _ _ H), set_heap_id.
    destruct (py_in f tl); [|eexists; reflexivity].
    rewrite (load_dict_run _ _ _ H).
    apply mem_keys, keys_get in Em. destruct Em as [v ->].
    destruct (Dict.get f mw) as [m|]; [|eexists; reflexivity].
    destruct (m <? String.length v)%nat; eexists; reflexivity.
  - destruct (py_in f tl); [|eexists; reflexivity].
    erewrite load_dict_run; [|apply lookup_insert_eq].
    rewrite get_set_eq.
    destruct (Dict.get f mw) as [m|]; [|eexists; reflexivity].
    destruct (m <? String.length "")%nat; eexists; reflexivity.
Qed.

Lemma fill_record_run tl l fields :
  forall mw w d,
    heap w !! l = Some (ODict d) ->
    exists mw',
      fold_each fields (ensure_field tl l) mw w
      = (Ok mw', set_heap (<[l := ODict (fill fields d)]> (heap w)) w).
Proof.
  induction fields as [|f fields IH]; intros mw w d H; simpl.
  - exists mw. unfold ret. now rewrite (insert_id _ _ _ H), set_heap_id.
  - unfold bind.
    destruct (ensure_field_run tl l mw f w d H) as [mw1 ->].
    destruct (IH mw1
                (set_heap (<[l := ODict (fill_field d f)]> (heap w)) w)
                (fill_field d f)) as [mw2 ->].
    { apply lookup_insert_eq. }
    exists mw2. simpl. unfold set_heap; simpl. now rewrite insert_insert_eq.
Qed.

Lemma fill_all_run tl fields :
  forall es mw w,
    (forall l, l ∈ es -> exists d, heap w !! l = Some (ODict d)) ->
    exists mw' h',
      fold_each es
        (fun mw entry => fold_each fields (ensure_field tl entry) mw) mw w
      = (Ok mw', set_heap h' w)
      /\ (forall l, l ∉ es -> h' !! l = heap w !! l)
      /\ (forall l d, l ∈ es -> heap w !! l = Some (ODict d) ->
                      h' !! l = Some (ODict (fill fields d))).
Proof.
  induction es as [|e es IH]; intros mw w Hd; simpl.
  - exists mw, (heap w). rewrite set_heap_id. split; [reflexivity|].
    split; [reflexivity|]. intros l d Hl. now apply not_elem_of_nil in Hl.
  - destruct (Hd e) as [de He]; [apply list_elem_of_here|].
    unfold bind at 1.
    destruct (fill_record_run tl e fields mw w de He) as [mw1 ->].
    set (w1 := set_heap (<[e := ODict (fill fields de)]> (heap w)) w).
    destruct (IH mw1 w1) as (mw2 & h2 & Hrun & Hout & Hin).
    { intros l Hl. simpl. destruct (decide (e = l)) as [->|Hne].
      - rewrite lookup_insert_eq. eauto.
      - rewrite lookup_insert_ne by exact Hne.
        apply Hd. now apply list_elem_of_further. }
    exists mw2, h2. rewrite Hrun. split; [reflexivity|]. split.
    + intros l Hl. apply not_elem_of_cons in Hl as [Hne Hl].
      rewrite (Hout l Hl). simpl. now apply lookup_insert_ne.
    + intros l d Hl Hw. destruct (decide (l ∈ es)) as [Hes|Hes].
      * destruct (decide (e = l)) as [->|Hne].
        -- assert (d = de) as -> by congruence.
           rewrite (Hin l (fill fields de) Hes).
           ++ now rewrite fill_idem.
           ++ simpl. apply lookup_insert_eq.
        -- apply Hin; [exact Hes|]. simpl.
           now rewrite lookup_insert_ne by exact Hne.
      * apply elem_of_cons in Hl as [->|Hl]; [|contradiction].
        assert (d = de) as -> by congruence.
        rewrite (Hout e Hes). simpl. apply lookup_insert_eq.
Qed.


Lemma collect_keys_run :
  forall es w,
    (forall l, l ∈ es -> exists d, heap w !! l = Some (ODict d)) ->
    exists added,
      map_each es (fun entry => d <- load_dict entry ;; ret (Dict.keys d)) w
      = (Ok added, w)
      /\ forall k, k ∈ concat added <-> key_of_some (heap w) es k.
Proof.
  induction es as [|e es IH]; intros w Hd; simpl.
  - exists []. split; [reflexivity|]. intros k; simpl. split.
    + intros H. now apply not_elem_of_nil in H.
    + intros (l & d & Hl & _). now apply not_elem_of_nil in Hl.
  - destruct (Hd e) as [de He]; [apply list_elem_of_here|].
    destruct (IH w) as (added & Hrun & Hkeys).
    { intros l Hl. apply Hd. now apply list_elem_of_further. }
    exists (Dict.keys de :: added). unfold bind at 1. unfold bind at 1.
    rewrite (load_dict_run _ _ _ He). simpl. unfold bind at 1.
    rewrite Hrun. split; [reflexivity|].
    intros k. simpl. rewrite elem_of_app, Hkeys. split.
    + intros [Hk|(l & d & Hl & Hw & Hk)].
      * exists e, de. split; [apply list_elem_of_here | auto].
      * exists l, d. split; [now apply list_elem_of_further | auto].
    + intros (l & d & Hl & Hw & Hk).
      apply elem_of_cons in Hl as [->|Hl].
      * left. congruence.
      * right. exists l, d. auto.
Qed.


Lemma iter_records_run w d es :
  seq_of (heap w) d = Some es -> iter_records d w = (Ok es, w).
Proof.
  unfold seq_of, iter_records, bind, load.
  destruct (heap w !! d) as [[[|]|]|]; intros H; simplify_eq; reflexivity.
Qed.


Lemma ensure_complete_run self w es :
  hash_ok w ->
  seq_of (heap w) (data self) = Some es ->
  (forall l, l ∈ es -> exists d, heap w !! l = Some (ODict d)) ->
  exists mw h' fields,
    ensure_complete self w = (Ok (set_max_widths mw self), set_heap h' w)
    /\ (forall k, k ∈ fields <-> key_of_some (heap w) es k)
    /\ (forall l, l ∉ es -> h' !! l = heap w !! l)
    /\ (forall l d, l ∈ es -> heap w !! l = Some (ODict d) ->
                    h' !! l = Some (ODict (fill fields d))).
Proof.
  intros Hhash Hseq Hd. unfold ensure_complete. unfold bind at 1.
  rewrite (iter_records_run _ _ _ Hseq).
  destruct (collect_keys_run es w Hd) as (added & Hrun & Hkeys).
  unfold bind at 1. rewrite Hrun. unfold bind at 1. simpl.
  set (fields := hash_order w (concat added)).
  destruct (fill_all_run (truncate_list (endpoint self)) fields es
              (max_widths self) w Hd) as (mw & h' & Hfill & Hout & Hin).
  exists mw, h', fields. unfold bind. rewrite Hfill.
  split; [reflexivity|]. split; [|split; assumption].
  intros k. unfold fields. rewrite (proj2 (Hhash _)). apply Hkeys.
Qed.

(** ** Construction *)

Lemma alloc_run o w :
  let l := fresh (dom (heap w)) in
  alloc o w = (Ok l, set_heap (<[l := o]> (heap w)) w)
  /\ heap w !! l = None.
Proof.
  split; [reflexivity|]. apply not_elem_of_dom, is_fresh.
Qed.

(** The first two statements of [__init__]: the data, or a new empty dict
    in its place, handed to the rest [k] of the constructor. *)
Lemma init_data_run w data0 es :
  records_of (heap w) data0 es ->
  exists d h1,
    (forall B (k : loc -> M B),
        (t <- truthy data0 ;;
         d <- match data0 with
              | PyRef l => if t then ret l else alloc (ODict [])
              | PyNone => alloc (ODict [])
              end ;;
         k d) w = k d (set_heap h1 w))
    /\ seq_of h1 d = Some es
    /\ (forall l o, heap w !! l = Some o -> h1 !! l = Some o).
Proof.
  intros Hrec.
  destruct (alloc_run (ODict []) w) as [Hrun Hfresh].
  assert (Hnew : es = [] ->
            seq_of (<[fresh (dom (heap w)) := ODict []]> (heap w))
              (fresh (dom (heap w))) = Some es
            /\ (forall l o, heap w !! l = Some o ->
                  <[fresh (dom (heap w)) := ODict []]> (heap w) !! l = Some o)).
  { intros ->. split.
    - unfold seq_of. now rewrite lookup_insert_eq.
    - intros l o Hl. rewrite lookup_insert_ne; [exact Hl|].
      intros <-. congruence. }
  destruct data0 as [|inp]; simpl in Hrec.
  - eexists _, _. split; [|apply Hnew, Hrec].
    intros B k. unfold bind; simpl. reflexivity.
  - destruct es as [|e es].
    + eexists _, _. split; [|now apply Hnew].
      intros B k. unfold bind, truthy, bind, load. rewrite Hrec. reflexivity.
    + exists inp, (heap w). split; [|split; [|auto]].
      * intros B k. unfold bind, truthy, bind, load. rewrite Hrec. simpl.
        now rewrite set_heap_id.
      * unfold seq_of. now rewrite Hrec.
Qed.

Lemma key_of_some_perm h h' es es' k :
  Permutation es es' ->
  (forall l o, h !! l = Some o -> h' !! l = Some o) ->
  all_records h es ->
  key_of_some h' es' k <-> key_of_some h es k.
Proof.
  intros Hperm Hsub Hall. split; intros (l & d & Hl & Hd & Hk).
  - rewrite <- Hperm in Hl. destruct (Hall l Hl) as [d0 Hd0].
    exists l, d0. split; [exact Hl|]. split; [exact Hd0|].
    apply Hsub in Hd0. congruence.
  - exists l, d. rewrite <- Hperm. auto.
Qed.

Lemma Result_init_run w ep data0 es :
  hash_ok w ->
  order_ok ep ->
  records_of (heap w) data0 es ->
  all_records (heap w) es ->
  exists mw h' d' es' fields,
    Result_init data0 ep w
    = (Ok {| endpoint := ep; data := d'; max_widths := mw |}, set_heap h' w)
    /\ seq_of h' d' = Some es'
    /\ Permutation es es'
    /\ (forall k, k ∈ fields <-> key_of_some (heap w) es k)
    /\ (forall l d, l ∈ es -> heap w !! l = Some (ODict d) ->
                    h' !! l = Some (ODict (fill fields d))).
Proof.
  intros Hhash Hord Hrec Hall. unfold Result_init.
  destruct (init_data_run w data0 es Hrec) as (d & h1 & Hrun & Hseq1 & Hsub1).
  rewrite Hrun. clear Hrun.
  unfold bind, call_order. simpl.
  destruct (order ep h1 d) as [h2 d'] eqn:Eord.
  destruct (Hord h1 d es h2 d' Hseq1 Eord) as (Hsub2 & es' & Hseq2 & Hperm).
  assert (Hsub : forall l o, heap w !! l = Some o -> h2 !! l = Some o)
    by (intros l o Hl; apply Hsub2, Hsub1, Hl).
  set (w2 := set_heap h2 (set_heap h1 w)).
  assert (Hall2 : all_records (heap w2) es').
  { intros l Hl. rewrite <- Hperm in Hl. destruct (Hall l Hl) as [d0 Hd0].
    exists d0. simpl. now apply Hsub. }
  destruct (ensure_complete_run
              {| endpoint := ep; data := d'; max_widths := [] |} w2 es')
    as (mw & h' & fields & Hrun & Hfields & Hout & Hin);
    [exact Hhash | exact Hseq2 | exact Hall2 |].
  exists mw, h', d', es', fields. rewrite Hrun.
  split; [reflexivity|]. split; [|split; [exact Hperm|split]].
  - unfold seq_of. rewrite Hout; [exact Hseq2|].
    intros Hd'. destruct (Hall2 d' Hd') as [dd Hdd].
    unfold seq_of in Hseq2. simpl in Hdd. rewrite Hdd in Hseq2.
    destruct dd; [|discriminate]. simplify_eq.
    now apply not_elem_of_nil in Hd'.
  - intros k. rewrite Hfields. now apply key_of_some_perm.
  - intros l d0 Hl Hd0. apply Hin.
    + now rewrite <- Hperm.
    + simpl. now apply Hsub.
Qed.

Lemma hash_ok_world_of h term draws : hash_ok (world_of h term draws).
Proof.
  intros added. simpl. split; [apply NoDup_remove_dups|].
  intros k. apply elem_of_remove_dups.
Qed.

Lemma order_ok_keep skip truncate : order_ok (endpoint_of skip truncate).
Proof.
  intros h d es h' d' Hseq [= <- <-]. split; [auto|].
  exists es. split; [exact Hseq | reflexivity].
Qed.

Lemma all_records_people : all_records heap_people [1%nat; 2%nat].
Proof.
  intros l Hl. apply elem_of_cons in Hl as [->|Hl].
  - eexists. reflexivity.
  - apply list_elem_of_singleton in Hl as ->. eexists. reflexivity.
Qed.

(** C1.  After [Result(data, endpoint)], which normalizes through
    [ensure_complete], the stored records are the input records in the
    display order, every one of them has as its keys exactly the keys found
    in some input record, a key that its original lacked is mapped to the
    empty string, and a key that its original had keeps its value. *)
Theorem init_uniform_keys w ep data0 es :
  hash_ok w ->
  order_ok ep ->
  records_of (heap w) data0 es ->
  all_records (heap w) es ->
  exists r w' stored,
    Result_init data0 ep w = (Ok r, w')
    /\ iter_records (data r) w' = (Ok stored, w')
    /\ Permutation es stored
    /\ forall l, l ∈ stored ->
         exists d0 d,
           heap w !! l = Some (ODict d0)
           /\ heap w' !! l = Some (ODict d)
           /\ (forall k, k ∈ Dict.keys d <-> key_of_some (heap w) es k)
           /\ (forall k, key_of_some (heap w) es k -> k ∉ Dict.keys d0 ->
                         Dict.get k d = Some "")
           /\ (forall k, k ∈ Dict.keys d0 -> Dict.get k d = Dict.get k d0).
Proof.
  intros Hhash Hord Hrec Hall.
  destruct (Result_init_run w ep data0 es Hhash Hord Hrec Hall)
    as (mw & h' & d' & es' & fields & Hrun & Hseq & Hperm & Hfields & Hin).
  eexists _, _, es'. split; [exact Hrun|]. simpl.
  split; [now apply iter_records_run|]. split; [exact Hperm|].
  intros l Hl. rewrite <- Hperm in Hl. destruct (Hall l Hl) as [d0 Hd0].
  exists d0, (fill fields d0). split; [exact Hd0|].
  split; [now apply Hin|]. split; [|split].
  - intros k. rewrite keys_fill, Hfields. split; [|auto].
    intros [Hk|Hk]; [|exact Hk]. exists l, d0. auto.
  - intros k Hk Hout. apply get_fill_new; [exact Hout|]. now apply Hfields.
  - intros k Hk. now apply get_fill_old.
Qed.

Lemma init_uniform_keys_witness :
  exists r w' stored,
    Result_init (PyRef 0%nat) (endpoint_of [] [])
      (world_of heap_people None (fun _ => 7%nat)) = (Ok r, w')
    /\ iter_records (data r) w' = (Ok stored, w')
    /\ Permutation [1%nat; 2%nat] stored
    /\ forall l, l ∈ stored ->
         exists d0 d,
           heap_people !! l = Some (ODict d0)
           /\ heap w' !! l = Some (ODict d)
           /\ (forall k, k ∈ Dict.keys d
                         <-> key_of_some heap_people [1%nat; 2%nat] k)
           /\ (forall k, key_of_some heap_people [1%nat; 2%nat] k ->
                         k ∉ Dict.keys d0 -> Dict.get k d = Some "")
           /\ (forall k, k ∈ Dict.keys d0 -> Dict.get k d = Dict.get k d0).
Proof.
  apply (init_uniform_keys (world_of heap_people None (fun _ => 7%nat))
           (endpoint_of [] []) (PyRef 0%nat) [1%nat; 2%nat]).
  - apply hash_ok_world_of.
  - apply order_ok_keep.
  - reflexivity.
  - apply all_records_people.
Defined.

(** ** Export *)

(** C2.  [save] reads [self.title], which no [Result] has: whatever the
    result, the path and the world, it raises [AttributeError] before it
    logs or writes anything, and the world is left as it was. *)
Theorem save_raises_AttributeError (self : Result) (outfile : string)
    (w : world) :
  save self outfile w = (Raise (AttributeError "Result" "title"), w).
Proof. reflexivity. Qed.

(** ** The width of a column *)

Lemma terminal_width_run w :
  try_except (c <- get_terminal_size ;; ret (Z.of_nat c)) is_OSError
    (ret 120) w = (Ok (surface_width w), w).
Proof.
  unfold try_except, bind, get_terminal_size, surface_width.
  now destruct (terminal w).
Qed.

(** The three ways [available_width] ends. *)
Lemma available_width_cases self columns w :
  available_width self columns w =
  if len columns =? 0 then (Raise ZeroDivisionError, w)
  else if remaining self w <? 0
       then (Ok (Z.quot (surface_width w) (len columns)),
             add_log WARNING too_small w)
       else if len columns - len (max_widths self) =? 0
            then (Raise ZeroDivisionError, w)
            else (Ok (Z.quot (remaining self w)
                        (len columns - len (max_widths self))), w).
Proof.
  unfold available_width. unfold bind at 1. rewrite terminal_width_run.
  unfold bind at 1, int_div at 1.
  destruct (len columns =? 0); [reflexivity|]. simpl.
  fold (remaining self w).
  destruct (remaining self w <? 0); [reflexivity|].
  unfold int_div.
  now destruct (len columns - len (max_widths self) =? 0).
Qed.

(** When the fields of [max_widths] take more than the surface width,
    [available_width] warns once and answers the naive width, which is not
    negative. *)
Lemma available_width_fallback self columns w :
  columns <> [] ->
  remaining self w < 0 ->
  available_width self columns w
  = (Ok (Z.quot (surface_width w) (len columns)), add_log WARNING too_small w)
  /\ 0 <= Z.quot (surface_width w) (len columns).
Proof.
  intros Hne Hneg. rewrite available_width_cases.
  assert (Hlen : 0 < len columns).
  { unfold len. destruct columns; [contradiction|]. simpl. lia. }
  destruct (Z.eqb_spec (len columns) 0); [lia|].
  destruct (Z.ltb_spec (remaining self w) 0); [|lia].
  split; [reflexivity|]. apply Z.quot_pos; [|lia].
  unfold surface_width. destruct (terminal w); lia.
Qed.

(** With more columns than fields in [max_widths], the width is not
    negative. *)
Lemma available_width_nonneg self columns w cw w' :
  len (max_widths self) < len columns ->
  available_width self columns w = (Ok cw, w') ->
  0 <= cw.
Proof.
  intros Hlt. rewrite available_width_cases.
  assert (0 <= len (max_widths self)) by (unfold len; lia).
  destruct (Z.eqb_spec (len columns) 0); [lia|].
  destruct (Z.ltb_spec (remaining self w) 0).
  - intros [= <- <-]. apply Z.quot_pos; [|lia].
    unfold surface_width. destruct (terminal w); lia.
  - destruct (Z.eqb_spec (len columns - len (max_widths self)) 0); [lia|].
    intros [= <- <-]. apply Z.quot_pos; lia.
Qed.

(** When every column has its field in [max_widths] and they fit the
    surface, the last division is by zero. *)
Lemma available_width_divides_by_zero self columns w :
  len columns = len (max_widths self) ->
  0 <= remaining self w ->
  available_width self columns w = (Raise ZeroDivisionError, w).
Proof.
  intros Hlen Hrem. rewrite available_width_cases.
  destruct (Z.eqb_spec (len columns) 0); [reflexivity|].
  destruct (Z.ltb_spec (remaining self w) 0); [lia|].
  destruct (Z.eqb_spec (len columns - len (max_widths self)) 0);
    [reflexivity | lia].
Qed.

(** C4.  The record [{"a": "x", "b": "y", "c": "z"}] under an endpoint
    whose skip list and truncate list are both [["b", "c"]], with no
    terminal (width 120): the only column is ["a"], [max_widths] has the two
    fields [b] and [c], and [available_width] answers [118 / (1 - 2)], the
    negative number [-118], without a warning. *)
Theorem available_width_negative :
  exists r w1,
    Result_init (PyRef 0%nat) (endpoint_of ["b"; "c"] ["b"; "c"])
      (world_of heap_abc None (fun _ => 0%nat)) = (Ok r, w1)
    /\ max_widths r = [("b", 1%nat); ("c", 1%nat)]
    /\ table_columns r w1 = (Ok ["a"], w1)
    /\ available_width r ["a"] w1 = (Ok (-118), w1)
    /\ log w1 = [].
Proof.
  eexists _, _. split; [vm_compute; reflexivity|].
  repeat split; vm_compute; reflexivity.
Qed.

(** C5.  The record [{"url": "http://x"}] under an endpoint whose truncate
    list is [["url"]], with no terminal (width 120): the only column is
    ["url"], it is in [max_widths], and [available_width] divides
    [120 - 8] by [1 - 1]: it raises [ZeroDivisionError], and so does
    [table_rows] before it yields a row. *)
Theorem available_width_zero_division :
  exists r w1,
    Result_init (PyRef 0%nat) (endpoint_of [] ["url"])
      (world_of heap_url None (fun _ => 0%nat)) = (Ok r, w1)
    /\ max_widths r = [("url", 8%nat)]
    /\ table_columns r w1 = (Ok ["url"], w1)
    /\ available_width r ["url"] w1 = (Raise ZeroDivisionError, w1)
    /\ table_rows r ["url"] 25 w1 = (([], Some ZeroDivisionError), w1).
Proof.
  eexists _, _. split; [vm_compute; reflexivity|].
  repeat split; vm_compute; reflexivity.
Qed.

(** ** A result without records *)

(** After [Result(data, endpoint)] on no record at all, the stored data is
    an empty list or the empty dict put in place of the data, and
    [table_columns], which reads [self.data[0]], raises. *)
Lemma empty_result_columns_raise w ep data0 :
  hash_ok w ->
  order_ok ep ->
  records_of (heap w) data0 [] ->
  exists r w',
    Result_init data0 ep w = (Ok r, w')
    /\ ((table_columns r w' = (Raise IndexError, w'))
        \/ (table_columns r w' = (Raise (KeyError "0"), w')))
    /\ forall limit,
        table_rows r [] limit w' = (([], Some ZeroDivisionError), w').
Proof.
  intros Hhash Hord Hrec.
  destruct (Result_init_run w ep data0 [] Hhash Hord Hrec)
    as (mw & h' & d' & es' & fields & Hrun & Hseq & Hperm & _).
  { intros l Hl. now apply not_elem_of_nil in Hl. }
  apply Permutation_nil in Hperm. subst es'.
  eexists _, _. split; [exact Hrun|]. split.
  - unfold table_columns, bind, load. simpl. unfold seq_of in Hseq.
    destruct (h' !! d') as [[[|]|[|]]|]; simplify_eq; auto.
  - intros limit. unfold table_rows. now rewrite available_width_cases.
Qed.

(** C3.  A [Result] made of [None], or of the empty list, holds the empty
    dict that line 33 puts in place of the data: [table_columns] raises
    [KeyError] on [self.data[0]]; when the endpoint orders the data into a
    new list, it raises [IndexError].  [table_rows] on the empty column
    list raises [ZeroDivisionError] when its first row is asked for. *)
Theorem empty_result_raises :
  (exists r w1,
      Result_init PyNone (endpoint_of [] [])
        (world_of ∅ None (fun _ => 0%nat)) = (Ok r, w1)
      /\ table_columns r w1 = (Raise (KeyError "0"), w1)
      /\ table_rows r [] 25 w1 = (([], Some ZeroDivisionError), w1))
  /\ (exists r w1,
      Result_init (PyRef 0%nat) (endpoint_of [] [])
        (world_of heap_empty_list None (fun _ => 0%nat)) = (Ok r, w1)
      /\ table_columns r w1 = (Raise (KeyError "0"), w1)
      /\ table_rows r [] 25 w1 = (([], Some ZeroDivisionError), w1))
  /\ (exists r w1,
      Result_init (PyRef 0%nat) endpoint_new_list
        (world_of heap_empty_list None (fun _ => 0%nat)) = (Ok r, w1)
      /\ table_columns r w1 = (Raise IndexError, w1)
      /\ table_rows r [] 25 w1 = (([], Some ZeroDivisionError), w1)).
Proof.
  repeat split; eexists _, _;
    (split; [vm_compute; reflexivity|]); split; vm_compute; reflexivity.
Qed.

(** ** Colors *)

(** The loop that draws a color stops after its first draw, whatever is
    drawn, when [seen_colors] is empty. *)
Lemma while_color_once fuel self w :
  while_color (S fuel) self [] None w = color self w.
Proof.
  simpl. unfold bind, color. simpl. now destruct fuel.
Qed.

(** C9.  Two columns and a random generator that draws 7 twice: the static
    table and the animated table both give the two columns the color
    ["color(7)"].  The loop stops at the first draw, [seen_colors] being
    empty all along. *)
Theorem table_colors_repeat :
  exists r w1,
    Result_init (PyRef 0%nat) (endpoint_of [] [])
      (world_of heap_people None (fun _ => 7%nat)) = (Ok r, w1)
    /\ (exists w2 t,
          table 1 r 25 w1 = (Ok tt, w2)
          /\ console w2 = [t]
          /\ map header (columns_of t) = ["Name"; "Role"]
          /\ map style (columns_of t) = ["color(7)"; "color(7)"])
    /\ (exists w2 t,
          table_live 1 r 25 w1 = (Ok tt, w2)
          /\ console w2 = [t]
          /\ map header (columns_of t) = ["Name"; "Role"]
          /\ map style (columns_of t) = ["color(7)"; "color(7)"]).
Proof.
  eexists _, _. split; [vm_compute; reflexivity|].
  split; eexists _, _; (split; [vm_compute; reflexivity|]);
    repeat split; vm_compute; reflexivity.
Qed.

(** ** Fetching *)

(** For a registered name and a status other than 200, [get] reads
    [result.txt], which no [Response] has, and raises [AttributeError]
    instead of leaving through [sys.exit] with the body. *)
Lemma get_raises_on_failure register names self name make w :
  Dict.get name register = Some make ->
  status_code (http w (url (make (baseurl self)))) <> 200 ->
  exists w',
    get register names self name w
    = (Raise (AttributeError "Response" "txt"), w')
    /\ heap w' = heap w.
Proof.
  intros Hreg Hst. unfold get. rewrite Hreg.
  unfold bind, requests_get.
  destruct (quiet self); simpl;
    (destruct (Z.eqb_spec
                 (status_code (http w (url (make (baseurl self))))) 200);
     [contradiction|]); simpl; eexists; split; reflexivity.
Qed.

(** C8.  The endpoint ["people"] is registered and the server answers 404
    with the body ["Not Found"]: [get] logs the request and raises
    [AttributeError] for [txt]; it does not leave through [sys.exit], and
    the body is in no message. *)
Theorem get_failure_loses_body :
  get register_people ["people"] client_example "people"
    (world_of ∅ None (fun _ => 0%nat))
  = (Raise (AttributeError "Response" "txt"),
     add_log INFO "GET https://us-rse.org/api/people.json"
       (world_of ∅ None (fun _ => 0%nat))).
Proof. vm_compute. reflexivity. Qed.

(** ** Rows *)

Lemma available_width_world self columns w r w' :
  available_width self columns w = (r, w') ->
  w' = w \/ w' = add_log WARNING too_small w.
Proof.
  rewrite available_width_cases.
  repeat match goal with
         | |- context [if ?b then _ else _] => destruct b
         end; intros [= <- <-]; auto.
Qed.

Lemma available_width_heap self columns w r w' :
  available_width self columns w = (r, w') -> heap w' = heap w.
Proof.
  intros [-> | ->]%available_width_world; reflexivity.
Qed.

(** One cell: the record is read, the column looked up. *)
Lemma parse_row_cases self column_width row :
  forall columns w,
    (exists cells,
        parse_row self columns column_width row w = (Ok cells, w)
        /\ Forall2
             (fun column cell =>
                exists d content,
                  heap w !! row = Some (ODict d)
                  /\ Dict.get column d = Some content
                  /\ cell = parse_cell (truncate_list (endpoint self))
                              column_width column content)
             columns cells)
    \/ (exists e, parse_row self columns column_width row w = (Raise e, w)).
Proof.
  unfold parse_row.
  induction columns as [|c columns IH]; intros w; simpl.
  - left. exists []. split; [reflexivity | constructor].
  - unfold bind at 1. unfold bind at 1. unfold load_dict, bind, load.
    destruct (heap w !! row) as [[d|]|] eqn:Hrow; simpl;
      [|right; eexists; reflexivity..].
    destruct (Dict.get c d) as [content|] eqn:Hget; simpl;
      [|right; eexists; reflexivity].
    destruct (IH w) as [(cells & Hrun & Hcells)|[e Hrun]].
    + left. eexists (_ :: cells). unfold bind.
      unfold load_dict, bind, load in Hrun. rewrite Hrun.
      split; [reflexivity|]. constructor; [exists d, content; auto|].
      eapply Forall2_impl; [exact Hcells|].
      intros x y (d0 & content0 & H1 & H2 & H3). rewrite Hrow in H1.
      exists d0, content0. auto.
    + right. exists e. unfold bind.
      unfold load_dict, bind, load in Hrun. now rewrite Hrun.
Qed.

Lemma parse_row_run self columns column_width row w d :
  heap w !! row = Some (ODict d) ->
  (forall c, c ∈ columns -> is_Some (Dict.get c d)) ->
  parse_row self columns column_width row w
  = (Ok (row_of self columns column_width (heap w) row), w).
Proof.
  intros Hrow. unfold row_of, parse_row. rewrite Hrow.
  induction columns as [|c columns IH]; intros Hcols; simpl; [reflexivity|].
  unfold bind at 1. unfold bind at 1. rewrite (load_dict_run _ _ _ Hrow).
  destruct (Hcols c) as [content Hget]; [apply list_elem_of_here|].
  rewrite Hget. simpl. unfold bind at 1. rewrite IH; [reflexivity|].
  intros c' Hc'. apply Hcols. now apply list_elem_of_further.
Qed.

(** The loop yields the rows of the records up to the limit, in order. *)
Lemma yield_rows_run self columns limit column_width :
  forall es i w,
    has_columns (heap w) columns es ->
    yield_rows self columns limit column_width i es w
    = ((map (row_of self columns column_width (heap w))
          (if limit =? 0 then es else take (Z.to_nat (limit + 1 - i)) es),
        None), w).
Proof.
  induction es as [|e es IH]; intros i w Hes; simpl.
  - destruct (limit =? 0); [reflexivity|]. now rewrite take_nil.
  - destruct (Hes e) as (d & Hd & Hcols); [apply list_elem_of_here|].
    assert (Hrest : has_columns (heap w) columns es).
    { intros l Hl. apply Hes. now apply list_elem_of_further. }
    destruct (Z.eqb_spec limit 0) as [->|Hlim]; simpl.
    + rewrite (parse_row_run _ _ _ _ _ _ Hd Hcols), (IH _ _ Hrest).
      reflexivity.
    + destruct (Z.gtb_spec i limit) as [Hgt|Hle]; simpl.
      * replace (Z.to_nat (limit + 1 - i)) with 0%nat by lia. reflexivity.
      * rewrite (parse_row_run _ _ _ _ _ _ Hd Hcols), (IH _ _ Hrest).
        destruct (Z.eqb_spec limit 0); [contradiction|].
        replace (Z.to_nat (limit + 1 - i))
          with (S (Z.to_nat (limit + 1 - (i + 1)))) by lia.
        reflexivity.
Qed.

(** Whatever the heap holds, a yielded row is the row of the record of
    the same index, and the loop leaves the world as it was. *)
Lemma yield_rows_inv self columns limit column_width :
  forall es i w rows stop w',
    yield_rows self columns limit column_width i es w = ((rows, stop), w') ->
    w' = w
    /\ (Z.of_nat (List.length rows) <= Z.of_nat (List.length es))
    /\ (limit <> 0 -> i <= limit + 1 ->
        i + Z.of_nat (List.length rows) <= limit + 1)
    /\ forall n row,
        rows !! n = Some row ->
        exists l, es !! n = Some l
                  /\ parse_row self columns column_width l w = (Ok row, w).
Proof.
  induction es as [|e es IH]; intros i w rows stop w'; simpl.
  - intros [= <- <- <-]. simpl. repeat split; try lia. intros n row [=].
  - destruct (negb (limit =? 0) && (i >? limit)) eqn:Estop.
    + intros [= <- <- <-]. simpl. repeat split; try lia. intros n row [=].
    + destruct (parse_row_cases self column_width e columns w)
        as [(cells & Hrun & _)|[ex Hrun]]; rewrite Hrun.
      * destruct (yield_rows self columns limit column_width (i + 1) es w)
          as [[ys ey] wy] eqn:Erest.
        intros [= <- <- <-].
        destruct (IH _ _ _ _ _ Erest) as (-> & Hlen & Hlim & Hrows).
        split; [reflexivity|]. simpl. split; [lia|]. split.
        -- intros Hne Hi. apply andb_false_iff in Estop.
           destruct (Z.eqb_spec limit 0); [contradiction|].
           destruct Estop as [[=]|Hgt].
           destruct (Z.gtb_spec i limit); [discriminate|].
           specialize (Hlim Hne). lia.
        -- intros [|n] row Hn; simpl in Hn.
           ++ injection Hn as <-. exists e. auto.
           ++ apply Hrows, Hn.
      * intros [= <- <- <-]. simpl. repeat split; try lia. intros n row [=].
Qed.

Lemma iter_records_world d w r w' : iter_records d w = (r, w') -> w' = w.
Proof.
  unfold iter_records, bind, load.
  destruct (heap w !! d) as [[[|]|]|]; intros [= <- <-]; reflexivity.
Qed.

Lemma has_columns_people :
  has_columns heap_people_full ["name"; "role"] [1%nat; 2%nat].
Proof.
  intros l Hl. apply elem_of_cons in Hl as [->|Hl];
    [|apply list_elem_of_singleton in Hl as ->];
    (eexists; split; [reflexivity|]);
    intros c Hc; (apply elem_of_cons in Hc as [->|Hc];
                  [|apply list_elem_of_singleton in Hc as ->]);
    eexists; reflexivity.
Qed.

(** [table_rows] when the width is computed and the records have the
    columns. *)
Lemma table_rows_run self columns limit w cw w1 es :
  available_width self columns w = (Ok cw, w1) ->
  seq_of (heap w) (data self) = Some es ->
  has_columns (heap w) columns es ->
  table_rows self columns limit w
  = ((map (row_of self columns cw (heap w))
        (if limit =? 0 then es else take (Z.to_nat (limit + 1)) es),
      None), w1).
Proof.
  intros Hwidth Hseq Hcols.
  pose proof (available_width_heap _ _ _ _ _ Hwidth) as Hheap.
  unfold table_rows. rewrite Hwidth.
  rewrite (iter_records_run w1 (data self) es) by (now rewrite Hheap).
  rewrite yield_rows_run by (now rewrite Hheap).
  now rewrite Hheap, Z.sub_0_r.
Qed.





(** ** Cells *)


Lemma str_truthy_true s : s <> "" -> str_truthy s = true.
Proof. destruct s; [contradiction | reflexivity]. Qed.





(** ** Sharing *)

(** A stored record is not the object that holds the records. *)
Lemma data_not_a_record h d es l x :
  seq_of h d = Some es -> l ∈ es -> h !! l = Some (ODict x) -> d <> l.
Proof.
  unfold seq_of. intros Hseq Hl Hx ->. rewrite Hx in Hseq.
  destruct x; [|discriminate]. simplify_eq. now apply not_elem_of_nil in Hl.
Qed.

Lemma has_columns_assign h columns es l d c v :
  has_columns h columns es ->
  h !! l = Some (ODict d) ->
  has_columns (<[l := ODict (Dict.set c v d)]> h) columns es.
Proof.
  intros Hcols Hd l' Hl'. destruct (Hcols l' Hl') as (d' & Hd' & Hall).
  destruct (decide (l = l')) as [<-|Hne].
  - rewrite lookup_insert_eq. eexists. split; [reflexivity|].
    intros c' Hc'. assert (d' = d) as -> by congruence.
    apply keys_get, keys_set. right.
    destruct (Hall c' Hc') as [x Hx]. eapply get_Some_keys, Hx.
  - rewrite lookup_insert_ne by exact Hne. eauto.
Qed.

Lemma row_of_assigned self columns cw h l d c v j :
  columns !! j = Some c ->
  row_of self columns cw (<[l := ODict (Dict.set c v d)]> h) l !! j
  = Some (parse_cell (truncate_list (endpoint self)) cw c v).
Proof.
  intros Hj. unfold row_of. rewrite lookup_insert_eq, list_lookup_fmap, Hj.
  simpl. now rewrite get_set_eq.
Qed.

(** C10.  [Result(data, endpoint)] on a list of records works on the
    caller's own dicts: after it, each of them, at the reference the caller
    holds, has the fields of all the records, those it lacked being empty
    strings.  [to_dict] answers the reference kept in [self.data], not a
    copy, so what the caller does through it shows in the later rows: once
    the list is emptied [table_rows] yields nothing where it yielded the
    row of the first record, and once a field of a stored record is
    assigned, the cell of that record in that column is the cell of the new
    value. *)
Theorem init_shares_records w ep inp es :
  hash_ok w ->
  order_ok ep ->
  heap w !! inp = Some (OList es) ->
  all_records (heap w) es ->
  exists r w' fields stored,
    Result_init (PyRef inp) ep w = (Ok r, w')
    /\ (forall k, k ∈ fields <-> key_of_some (heap w) es k)
    /\ (forall l d0, l ∈ es -> heap w !! l = Some (ODict d0) ->
          heap w' !! l = Some (ODict (fill fields d0)))
    /\ to_dict r = data r
    /\ seq_of (heap w') (to_dict r) = Some stored
    /\ Permutation es stored
    /\ (forall columns limit cw w1 e rest,
          0 <= limit ->
          stored = e :: rest ->
          has_columns (heap w') columns stored ->
          available_width r columns w' = (Ok cw, w1) ->
          (exists rows,
              table_rows r columns limit w'
              = ((row_of r columns cw (heap w') e :: rows, None), w1))
          /\ table_rows r columns limit
               (set_heap (<[to_dict r := OList []]> (heap w')) w')
             = (([], None),
                set_heap (<[to_dict r := OList []]> (heap w')) w1))
    /\ (forall columns limit cw w1 n l d j c v,
          0 < limit ->
          (Z.of_nat n <= limit) ->
          stored !! n = Some l ->
          heap w' !! l = Some (ODict d) ->
          columns !! j = Some c ->
          has_columns (heap w') columns stored ->
          available_width r columns w' = (Ok cw, w1) ->
          exists rows row,
            table_rows r columns limit
              (set_heap (<[l := ODict (Dict.set c v d)]> (heap w')) w')
            = ((rows, None),
               set_heap (<[l := ODict (Dict.set c v d)]> (heap w')) w1)
            /\ rows !! n = Some row
            /\ row !! j
               = Some (parse_cell (truncate_list (endpoint r)) cw c v)).
Proof.
  intros Hhash Hord Hinp Hall.
  destruct (Result_init_run w ep (PyRef inp) es Hhash Hord Hinp Hall)
    as (mw & h' & d' & stored & fields & Hrun & Hseq & Hperm & Hfields & Hin).
  eexists _, _, fields, stored. split; [exact Hrun|]. simpl.
  split; [exact Hfields|]. split; [exact Hin|]. split; [reflexivity|].
  unfold to_dict; simpl. split; [exact Hseq|]. split; [exact Hperm|].
  set (r := {| endpoint := ep; data := d'; max_widths := mw |}).
  assert (Hmoved : forall columns cw w0 w1 h2,
             available_width r columns (set_heap h' w0) = (Ok cw, w1) ->
             available_width r columns (set_heap h2 w0)
             = (Ok cw, set_heap h2 w1)).
  { intros columns cw w0 w1 h2. rewrite !available_width_cases.
    change (remaining r (set_heap h2 w0)) with (remaining r (set_heap h' w0)).
    change (surface_width (set_heap h2 w0))
      with (surface_width (set_heap h' w0)).
    repeat match goal with
           | |- context [if ?b then _ else _] => destruct b
           end; intros [= <- <-]; reflexivity. }
  split.
  - intros columns limit cw w1 e rest Hlim -> Hcols Hwidth. split.
    + erewrite table_rows_run; [|exact Hwidth|exact Hseq|exact Hcols].
      destruct (limit =? 0); simpl; [eauto|].
      replace (Z.to_nat (limit + 1)) with (S (Z.to_nat limit)) by lia.
      simpl. eauto.
    + rewrite (table_rows_run r columns limit _ cw
                 (set_heap (<[d' := OList []]> h') w1) []).
      * destruct (limit =? 0); [reflexivity|]. now rewrite take_nil.
      * apply (Hmoved columns cw w w1), Hwidth.
      * simpl. unfold seq_of. now rewrite lookup_insert_eq.
      * intros l Hl. now apply not_elem_of_nil in Hl.
  - intros columns limit cw w1 n l d j c v Hlim Hn Hl Hd Hj Hcols Hwidth.
    assert (Hmem : l ∈ stored) by (eapply list_elem_of_lookup_2, Hl).
    eexists _, _. split; [|split].
    + apply table_rows_run.
      * apply (Hmoved columns cw w w1), Hwidth.
      * simpl. unfold seq_of. rewrite lookup_insert_ne; [exact Hseq|].
        intros Heq. eapply (data_not_a_record h' d' stored l); eauto.
      * simpl. now apply has_columns_assign.
    + destruct (Z.eqb_spec limit 0); [lia|].
      rewrite list_lookup_fmap, lookup_take_lt by lia. rewrite Hl. reflexivity.
    + simpl. now apply row_of_assigned.
Qed.

Lemma init_shares_records_witness :
  exists r w',
    Result_init (PyRef 0%nat) (endpoint_of [] [])
      (world_of heap_people None (fun _ => 7%nat)) = (Ok r, w')
    /\ to_dict r = data r
    /\ exists fields,
        forall l d0, l ∈ [1%nat; 2%nat] -> heap_people !! l = Some (ODict d0) ->
                     heap w' !! l = Some (ODict (fill fields d0)).
Proof.
  destruct (init_shares_records (world_of heap_people None (fun _ => 7%nat))
              (endpoint_of [] []) 0%nat [1%nat; 2%nat])
    as (r & w' & fields & stored & Hrun & _ & Hfill & Halias & _).
  - apply hash_ok_world_of.
  - apply order_ok_keep.
  - reflexivity.
  - apply all_records_people.
  - exists r, w'. split; [exact Hrun|]. split; [exact Halias|].
    exists fields. exact Hfill.
Defined.

(** * Further properties *)

(** ** The widths kept for the fields of the truncate list *)

Lemma get_track_other tl d' mw f g :
  g <> f -> Dict.get g (track tl d' mw f) = Dict.get g mw.
Proof.
  intros Hne. unfold track. destruct (py_in f tl); [|reflexivity].
  destruct (Dict.get f mw) as [m|].
  - destruct (m <? shown_width d' f)%nat; [|reflexivity].
    now apply get_set_ne.
  - now apply get_set_ne.
Qed.

Lemma get_track_same tl d' mw f :
  py_in f tl = true ->
  Dict.get f (track tl d' mw f) = omax (Dict.get f mw) (shown_width d' f).
Proof.
  intros Hin. unfold track, omax. rewrite Hin.
  destruct (Dict.get f mw) as [m|] eqn:E.
  - destruct (Nat.ltb_spec m (shown_width d' f)).
    + rewrite get_set_eq. f_equal. lia.
    + rewrite E. f_equal. lia.
  - now rewrite get_set_eq.
Qed.

Lemma omax_twice o n : omax (omax o n) n = omax o n.
Proof. unfold omax. destruct o; f_equal; lia. Qed.

Lemma shown_width_fill fields d g :
  g ∈ Dict.keys d -> shown_width (fill fields d) g = shown_width d g.
Proof. intros H. unfold shown_width. now rewrite get_fill_old. Qed.

Lemma get_track_fields tl g :
  forall fields d mw,
    Dict.get g (track_fields tl fields d mw)
    = if bool_decide (g ∈ fields) && py_in g tl
      then omax (Dict.get g mw) (shown_width (fill fields d) g)
      else Dict.get g mw.
Proof.
  induction fields as [|f fields IH]; intros d mw; simpl.
  - reflexivity.
  - rewrite IH.
    destruct (decide (g = f)) as [->|Hne].
    + rewrite (bool_decide_eq_true_2 (f ∈ f :: fields))
        by apply list_elem_of_here.
      assert (Hkey : f ∈ Dict.keys (fill_field d f))
        by (apply keys_fill_field; now right).
      destruct (py_in f tl) eqn:Htl.
      * rewrite get_track_same by exact Htl.
        rewrite (shown_width_fill fields _ _ Hkey).
        destruct (bool_decide (f ∈ fields)); simpl;
          [apply omax_twice | reflexivity].
      * rewrite !andb_false_r. unfold track. now rewrite Htl.
    + rewrite get_track_other by exact Hne.
      assert (Hiff : bool_decide (g ∈ f :: fields) = bool_decide (g ∈ fields)).
      { apply bool_decide_ext. rewrite elem_of_cons. tauto. }
      now rewrite Hiff.
Qed.

Lemma ensure_field_track tl l mw f w d :
  heap w !! l = Some (ODict d) ->
  ensure_field tl l mw f w
  = (Ok (track tl (fill_field d f) mw f),
     set_heap (<[l := ODict (fill_field d f)]> (heap w)) w).
Proof.
  intros H. unfold ensure_field, bind. rewrite (load_dict_run _ _ _ H).
  unfold track, shown_width, fill_field.
  destruct (Dict.mem f d) eqn:Em; simpl.
  - rewrite (insert_id _ _ _ H), set_heap_id.
    destruct (py_in f tl); [|reflexivity].
    rewrite (load_dict_run _ _ _ H).
    apply mem_keys, keys_get in Em. destruct Em as [v ->]. simpl.
    destruct (Dict.get f mw) as [m|]; [|reflexivity].
    destruct (m <? String.length v)%nat; reflexivity.
  - destruct (py_in f tl); [|reflexivity].
    erewrite load_dict_run; [|apply lookup_insert_eq].
    rewrite get_set_eq. simpl.
    destruct (Dict.get f mw) as [m|]; [|reflexivity].
    destruct (m <? 0)%nat; reflexivity.
Qed.

Lemma fill_record_track tl l fields :
  forall mw w d,
    heap w !! l = Some (ODict d) ->
    fold_each fields (ensure_field tl l) mw w
    = (Ok (track_fields tl fields d mw),
       set_heap (<[l := ODict (fill fields d)]> (heap w)) w).
Proof.
  induction fields as [|f fields IH]; intros mw w d H; simpl.
  - unfold ret. now rewrite (insert_id _ _ _ H), set_heap_id.
  - unfold bind. rewrite (ensure_field_track tl l mw f w d H).
    rewrite (IH _ _ (fill_field d f)) by apply lookup_insert_eq.
    simpl. unfold set_heap; simpl. now rewrite insert_insert_eq.
Qed.

Lemma width_at_filled fields h e de l g :
  h !! e = Some (ODict de) ->
  width_at fields (<[e := ODict (fill fields de)]> h) l g
  = width_at fields h l g.
Proof.
  intros He. unfold width_at. destruct (decide (e = l)) as [<-|Hne].
  - now rewrite lookup_insert_eq, He, fill_idem.
  - now rewrite lookup_insert_ne by exact Hne.
Qed.

Lemma fold_omax_ext (f1 f2 : loc -> nat) es :
  (forall l, f1 l = f2 l) ->
  forall o,
    fold_left (fun o l => omax o (f1 l)) es o
    = fold_left (fun o l => omax o (f2 l)) es o.
Proof.
  intros Hext. induction es as [|e es IH]; intros o; simpl; [reflexivity|].
  now rewrite IH, Hext.
Qed.

(** The two loops of [ensure_complete] together: the heap they leave and
    the widths they keep. *)
Lemma fill_all_track tl fields :
  forall es mw w,
    all_records (heap w) es ->
    exists mw' h',
      fold_each es
        (fun mw entry => fold_each fields (ensure_field tl entry) mw) mw w
      = (Ok mw', set_heap h' w)
      /\ (forall l, l ∉ es -> h' !! l = heap w !! l)
      /\ (forall l d, l ∈ es -> heap w !! l = Some (ODict d) ->
                      h' !! l = Some (ODict (fill fields d)))
      /\ (forall g,
             Dict.get g mw'
             = if bool_decide (g ∈ fields) && py_in g tl
               then fold_left
                      (fun o l => omax o (width_at fields (heap w) l g))
                      es (Dict.get g mw)
               else Dict.get g mw).
Proof.
  induction es as [|e es IH]; intros mw w Hd; simpl.
  - exists mw, (heap w). rewrite set_heap_id. split; [reflexivity|].
    split; [reflexivity|]. split.
    + intros l d Hl. now apply not_elem_of_nil in Hl.
    + intros g. now destruct (bool_decide (g ∈ fields) && py_in g tl).
  - destruct (Hd e) as [de He]; [apply list_elem_of_here|].
    unfold bind at 1. rewrite (fill_record_track tl e fields mw w de He).
    set (w1 := set_heap (<[e := ODict (fill fields de)]> (heap w)) w).
    destruct (IH (track_fields tl fields de mw) w1)
      as (mw2 & h2 & Hrun & Hout & Hin & Hmw).
    { intros l Hl. simpl. destruct (decide (e = l)) as [->|Hne].
      - rewrite lookup_insert_eq. eauto.
      - rewrite lookup_insert_ne by exact Hne.
        apply Hd. now apply list_elem_of_further. }
    exists mw2, h2. rewrite Hrun. split; [reflexivity|]. split; [|split].
    + intros l Hl. apply not_elem_of_cons in Hl as [Hne Hl].
      rewrite (Hout l Hl). simpl. now apply lookup_insert_ne.
    + intros l d Hl Hw. destruct (decide (l ∈ es)) as [Hes|Hes].
      * destruct (decide (e = l)) as [->|Hne].
        -- assert (d = de) as -> by congruence.
           rewrite (Hin l (fill fields de) Hes).
           ++ now rewrite fill_idem.
           ++ simpl. apply lookup_insert_eq.
        -- apply Hin; [exact Hes|]. simpl.
           now rewrite lookup_insert_ne by exact Hne.
      * apply elem_of_cons in Hl as [->|Hl]; [|contradiction].
        assert (d = de) as -> by congruence.
        rewrite (Hout e Hes). simpl. apply lookup_insert_eq.
    + intros g. rewrite Hmw, get_track_fields. simpl heap.
      rewrite (fold_omax_ext _ (fun l => width_at fields (heap w) l g))
        by (intros l; now apply width_at_filled).
      destruct (bool_decide (g ∈ fields) && py_in g tl); [|reflexivity].
      unfold width_at at 3. now rewrite He.
Qed.

Lemma fold_omax_from n (es : list loc) :
  forall m0,
    exists m,
      fold_left (fun o l => omax o (n l)) es (Some m0) = Some m
      /\ (m0 <= m)%nat
      /\ (forall l, l ∈ es -> (n l <= m)%nat)
      /\ (m = m0 \/ exists l, l ∈ es /\ n l = m).
Proof.
  induction es as [|e es IH]; intros m0; simpl.
  - exists m0. split; [reflexivity|]. split; [lia|]. split; [|now left].
    intros l Hl. now apply not_elem_of_nil in Hl.
  - destruct (IH (Nat.max m0 (n e))) as (m & Hm & Hle & Hall & Hhit).
    exists m. split; [exact Hm|]. split; [lia|]. split.
    + intros l Hl. apply elem_of_cons in Hl as [->|Hl]; [lia | now apply Hall].
    + destruct Hhit as [->|(l & Hl & Hn)].
      * destruct (Nat.max_spec m0 (n e)) as [[_ ->]|[_ ->]].
        -- right. exists e. split; [apply list_elem_of_here | reflexivity].
        -- now left.
      * right. exists l. split; [now apply list_elem_of_further | exact Hn].
Qed.

(** Over at least one record, the widths kept add up to the largest. *)
Lemma fold_omax_max n (e : loc) (es : list loc) :
  exists m,
    fold_left (fun o l => omax o (n l)) (e :: es) None = Some m
    /\ (forall l, l ∈ e :: es -> (n l <= m)%nat)
    /\ (exists l, l ∈ e :: es /\ n l = m).
Proof.
  simpl. destruct (fold_omax_from n es (n e)) as (m & Hm & Hle & Hall & Hhit).
  exists m. split; [exact Hm|]. split.
  - intros l Hl. apply elem_of_cons in Hl as [->|Hl]; [lia | now apply Hall].
  - destruct Hhit as [->|(l & Hl & Hn)].
    + exists e. split; [apply list_elem_of_here | reflexivity].
    + exists l. split; [now apply list_elem_of_further | exact Hn].
Qed.

Lemma ensure_complete_full self w es :
  hash_ok w ->
  max_widths self = [] ->
  seq_of (heap w) (data self) = Some es ->
  all_records (heap w) es ->
  exists mw h' fields,
    ensure_complete self w = (Ok (set_max_widths mw self), set_heap h' w)
    /\ NoDup fields
    /\ (forall k, k ∈ fields <-> key_of_some (heap w) es k)
    /\ (forall l, l ∉ es -> h' !! l = heap w !! l)
    /\ (forall l d, l ∈ es -> heap w !! l = Some (ODict d) ->
                    h' !! l = Some (ODict (fill fields d)))
    /\ (forall g,
           g ∈ fields -> g ∈ truncate_list (endpoint self) ->
           exists m,
             Dict.get g mw = Some m
             /\ (forall l d, l ∈ es -> h' !! l = Some (ODict d) ->
                             (shown_width d g <= m)%nat)
             /\ (exists l d, l ∈ es /\ h' !! l = Some (ODict d)
                             /\ shown_width d g = m))
    /\ (forall g,
           g ∉ fields \/ g ∉ truncate_list (endpoint self) ->
           Dict.get g mw = None).
Proof.
  intros Hhash Hmw0 Hseq Hd. unfold ensure_complete. unfold bind at 1.
  rewrite (iter_records_run _ _ _ Hseq).
  destruct (collect_keys_run es w Hd) as (added & Hrun & Hkeys).
  unfold bind at 1. rewrite Hrun. unfold bind at 1. simpl.
  set (fields := hash_order w (concat added)).
  destruct (fill_all_track (truncate_list (endpoint self)) fields es
              (max_widths self) w Hd)
    as (mw & h' & Hfill & Hout & Hin & Hget).
  exists mw, h', fields. unfold bind. rewrite Hfill.
  assert (Hfields : forall k, k ∈ fields <-> key_of_some (heap w) es k).
  { intros k. unfold fields. rewrite (proj2 (Hhash _)). apply Hkeys. }
  split; [reflexivity|]. split; [apply Hhash|]. split; [exact Hfields|].
  split; [exact Hout|]. split; [exact Hin|]. split.
  - intros g Hg Htl. specialize (Hget g).
    rewrite (bool_decide_eq_true_2 _ Hg) in Hget.
    rewrite (proj2 (py_in_elem g _) Htl), Hmw0 in Hget. simpl in Hget.
    destruct es as [|e es].
    { apply Hfields in Hg as (l & _ & Hl & _). now apply not_elem_of_nil in Hl. }
    destruct (fold_omax_max (fun l => width_at fields (heap w) l g) e es)
      as (m & Hm & Hall & l & Hl & Hhit).
    exists m. split; [congruence|]. split.
    + intros l' d' Hl' Hd'. destruct (Hd l' Hl') as [d0 Hd0].
      rewrite (Hin l' d0 Hl' Hd0) in Hd'. injection Hd' as <-.
      specialize (Hall l' Hl'). unfold width_at in Hall.
      now rewrite Hd0 in Hall.
    + destruct (Hd l Hl) as [d0 Hd0]. exists l, (fill fields d0).
      split; [exact Hl|]. split; [now apply Hin|].
      unfold width_at in Hhit. now rewrite Hd0 in Hhit.
  - intros g Hg. rewrite Hget, Hmw0.
    destruct (bool_decide (g ∈ fields) && py_in g _) eqn:E; [|reflexivity].
    apply andb_true_iff in E as [E1 E2].
    apply bool_decide_eq_true_1 in E1. apply py_in_elem in E2.
    destruct Hg; contradiction.
Qed.

Lemma keys_set_new {V} (d : Dict.t V) f v :
  Dict.mem f d = false ->
  Dict.keys (Dict.set f v d) = (Dict.keys d ++ [f])%list.
Proof.
  unfold Dict.mem. induction d as [|[k' v'] d IH]; simpl; [reflexivity|].
  destruct (String.eqb_spec f k') as [->|Hne]; [discriminate|].
  intros H. simpl. f_equal. now apply IH.
Qed.

Lemma mem_set_other {V} (d : Dict.t V) f v g :
  g <> f -> Dict.mem g (Dict.set f v d) = Dict.mem g d.
Proof. intros Hne. unfold Dict.mem. now rewrite get_set_ne. Qed.

(** A filled record keeps its keys where they are and gets the fields it
    lacked after them, in the order the fields are visited. *)
Lemma keys_fill_order fields :
  NoDup fields ->
  forall d,
    Dict.keys (fill fields d)
    = (Dict.keys d ++ List.filter (fun f => negb (Dict.mem f d)) fields)%list.
Proof.
  unfold fill. induction 1 as [|f fields Hf Hnd IH]; intros d; simpl.
  - now rewrite app_nil_r.
  - rewrite IH. unfold fill_field at 1 2.
    destruct (Dict.mem f d) eqn:Em; simpl; [reflexivity|].
    rewrite keys_set_new by exact Em. rewrite <- app_assoc. simpl.
    do 2 f_equal. apply filter_ext_in. intros g Hg.
    rewrite mem_set_other; [reflexivity|].
    intros ->. apply Hf. now apply list_elem_of_In.
Qed.

Lemma Result_init_full w ep data0 es :
  hash_ok w ->
  order_ok ep ->
  records_of (heap w) data0 es ->
  all_records (heap w) es ->
  exists mw h' d' es' fields,
    Result_init data0 ep w
    = (Ok {| endpoint := ep; data := d'; max_widths := mw |}, set_heap h' w)
    /\ seq_of h' d' = Some es'
    /\ Permutation es es'
    /\ NoDup fields
    /\ (forall k, k ∈ fields <-> key_of_some (heap w) es k)
    /\ (forall l d, l ∈ es -> heap w !! l = Some (ODict d) ->
                    h' !! l = Some (ODict (fill fields d)))
    /\ (forall l o, l ∉ es -> heap w !! l = Some o -> h' !! l = Some o)
    /\ (forall g,
           g ∈ fields -> g ∈ truncate_list ep ->
           exists m,
             Dict.get g mw = Some m
             /\ (forall l d, l ∈ es -> h' !! l = Some (ODict d) ->
                             (shown_width d g <= m)%nat)
             /\ (exists l d, l ∈ es /\ h' !! l = Some (ODict d)
                             /\ shown_width d g = m))
    /\ (forall g, g ∉ fields \/ g ∉ truncate_list ep ->
                  Dict.get g mw = None)
    /\ (exists hin din hout,
           order ep hin din = (hout, d')
           /\ seq_of hin din = Some es
           /\ seq_of hout d' = Some es'
           /\ (forall l o, heap w !! l = Some o -> hin !! l = Some o)).
Proof.
  intros Hhash Hord Hrec Hall. unfold Result_init.
  destruct (init_data_run w data0 es Hrec) as (d & h1 & Hrun & Hseq1 & Hsub1).
  rewrite Hrun. clear Hrun.
  unfold bind, call_order. simpl.
  destruct (order ep h1 d) as [h2 d'] eqn:Eord.
  destruct (Hord h1 d es h2 d' Hseq1 Eord) as (Hsub2 & es' & Hseq2 & Hperm).
  assert (Hsub : forall l o, heap w !! l = Some o -> h2 !! l = Some o)
    by (intros l o Hl; apply Hsub2, Hsub1, Hl).
  set (w2 := set_heap h2 (set_heap h1 w)).
  assert (Hall2 : all_records (heap w2) es').
  { intros l Hl. rewrite <- Hperm in Hl. destruct (Hall l Hl) as [d0 Hd0].
    exists d0. simpl. now apply Hsub. }
  destruct (ensure_complete_full
              {| endpoint := ep; data := d'; max_widths := [] |} w2 es')
    as (mw & h' & fields & Hrun & Hnd & Hfields & Hout & Hin & Hmax & Hnone);
    [exact Hhash | reflexivity | exact Hseq2 | exact Hall2 |].
  exists mw, h', d', es', fields. rewrite Hrun.
  split; [reflexivity|]. split; [|split; [exact Hperm|]].
  { unfold seq_of. rewrite Hout; [exact Hseq2|].
    intros Hd'. destruct (Hall2 d' Hd') as [dd Hdd].
    unfold seq_of in Hseq2. simpl in Hdd. rewrite Hdd in Hseq2.
    destruct dd; [|discriminate]. simplify_eq.
    now apply not_elem_of_nil in Hd'. }
  split; [exact Hnd|]. split.
  { intros k. rewrite Hfields. now apply key_of_some_perm. }
  split.
  { intros l d0 Hl Hd0. apply Hin; [now rewrite <- Hperm|].
    simpl. now apply Hsub. }
  split.
  { intros l o Hl Ho. rewrite Hout by (now rewrite <- Hperm).
    simpl. now apply Hsub. }
  split; [|split; [exact Hnone|]].
  - intros g Hg Htl.
    destruct (Hmax g Hg Htl) as (m & Hm & Hle & l & dl & Hl & Hdl & Hw).
    exists m. split; [exact Hm|]. split.
    + intros l' d0 Hl'. apply Hle. now rewrite <- Hperm.
    + exists l, dl. rewrite Hperm. auto.
  - exists h1, d, h2. auto.
Qed.

(** X1.  After [Result(data, endpoint)], [max_widths] has an entry exactly
    for the fields of the truncate list that some record has, and the entry
    of such a field is the largest length of its value over the stored
    records, the value being empty where the record lacked the field. *)
Theorem init_max_widths w ep data0 es :
  hash_ok w ->
  order_ok ep ->
  records_of (heap w) data0 es ->
  all_records (heap w) es ->
  exists r w',
    Result_init data0 ep w = (Ok r, w')
    /\ forall g,
        (g ∈ truncate_list ep -> key_of_some (heap w) es g ->
         exists m,
           Dict.get g (max_widths r) = Some m
           /\ (forall l d, l ∈ es -> heap w' !! l = Some (ODict d) ->
                           (shown_width d g <= m)%nat)
           /\ (exists l d, l ∈ es /\ heap w' !! l = Some (ODict d)
                           /\ shown_width d g = m))
        /\ (g ∉ truncate_list ep \/ ~ key_of_some (heap w) es g ->
            Dict.get g (max_widths r) = None).
Proof.
  intros Hhash Hord Hrec Hall.
  destruct (Result_init_full w ep data0 es Hhash Hord Hrec Hall)
    as (mw & h' & d' & es' & fields & Hrun & _ & _ & _ & Hfields & _ & _
        & Hmax & Hnone & _).
  eexists _, _. split; [exact Hrun|]. simpl. intros g. split.
  - intros Htl Hkey. apply Hmax; [now apply Hfields | exact Htl].
  - intros [Htl|Hkey]; apply Hnone; [now right|left].
    intros Hg. now apply Hkey, Hfields.
Qed.

Lemma init_max_widths_witness :
  exists r w',
    Result_init (PyRef 0%nat) (endpoint_of [] ["role"])
      (world_of heap_people None (fun _ => 7%nat)) = (Ok r, w')
    /\ forall g,
        (g ∈ ["role"] -> key_of_some heap_people [1%nat; 2%nat] g ->
         exists m,
           Dict.get g (max_widths r) = Some m
           /\ (forall l d, l ∈ [1%nat; 2%nat] ->
                           heap w' !! l = Some (ODict d) ->
                           (shown_width d g <= m)%nat)
           /\ (exists l d, l ∈ [1%nat; 2%nat] /\ heap w' !! l = Some (ODict d)
                           /\ shown_width d g = m))
        /\ (g ∉ ["role"] \/ ~ key_of_some heap_people [1%nat; 2%nat] g ->
            Dict.get g (max_widths r) = None).
Proof.
  apply (init_max_widths (world_of heap_people None (fun _ => 7%nat))
           (endpoint_of [] ["role"]) (PyRef 0%nat) [1%nat; 2%nat]).
  - apply hash_ok_world_of.
  - apply order_ok_keep.
  - reflexivity.
  - apply all_records_people.
Defined.

(** X2.  [Result(data, endpoint)] keeps the keys of every record in their
    order and puts the fields the record lacked after them, each once; a
    record without a repeated key stays so. *)
Theorem init_keeps_key_order w ep data0 es :
  hash_ok w ->
  order_ok ep ->
  records_of (heap w) data0 es ->
  all_records (heap w) es ->
  exists r w',
    Result_init data0 ep w = (Ok r, w')
    /\ forall l d0,
        l ∈ es -> heap w !! l = Some (ODict d0) ->
        exists d added,
          heap w' !! l = Some (ODict d)
          /\ Dict.keys d = (Dict.keys d0 ++ added)%list
          /\ NoDup added
          /\ (forall k, k ∈ added
                        <-> key_of_some (heap w) es k /\ k ∉ Dict.keys d0)
          /\ (NoDup (Dict.keys d0) -> NoDup (Dict.keys d)).
Proof.
  intros Hhash Hord Hrec Hall.
  destruct (Result_init_full w ep data0 es Hhash Hord Hrec Hall)
    as (mw & h' & d' & es' & fields & Hrun & _ & _ & Hnd & Hfields & Hin & _).
  eexists _, _. split; [exact Hrun|]. simpl. intros l d0 Hl Hd0.
  set (added := List.filter (fun f => negb (Dict.mem f d0)) fields).
  assert (Hadded : forall k, k ∈ added
                     <-> key_of_some (heap w) es k /\ k ∉ Dict.keys d0).
  { intros k. unfold added. rewrite list_elem_of_In, filter_In.
    rewrite <- list_elem_of_In, Hfields, negb_true_iff.
    rewrite <- not_true_iff_false, mem_keys. tauto. }
  exists (fill fields d0), added. split; [now apply Hin|].
  assert (Hnd' : NoDup added)
    by (unfold added; apply NoDup_ListNoDup,
          Stdlib.Lists.List.NoDup_filter, NoDup_ListNoDup, Hnd).
  split; [now apply keys_fill_order|]. split; [exact Hnd'|].
  split; [exact Hadded|].
  intros Hd. rewrite keys_fill_order by exact Hnd. apply NoDup_app.
  split; [exact Hd|]. split; [|exact Hnd'].
  intros k Hk Hk'. fold added in Hk'. apply Hadded in Hk' as [_ Hout].
  contradiction.
Qed.

Lemma init_keeps_key_order_witness :
  exists r w',
    Result_init (PyRef 0%nat) (endpoint_of [] [])
      (world_of heap_people None (fun _ => 7%nat)) = (Ok r, w')
    /\ forall l d0,
        l ∈ [1%nat; 2%nat] -> heap_people !! l = Some (ODict d0) ->
        exists d added,
          heap w' !! l = Some (ODict d)
          /\ Dict.keys d = (Dict.keys d0 ++ added)%list
          /\ NoDup added
          /\ (forall k, k ∈ added
                        <-> key_of_some heap_people [1%nat; 2%nat] k
                            /\ k ∉ Dict.keys d0)
          /\ (NoDup (Dict.keys d0) -> NoDup (Dict.keys d)).
Proof.
  apply (init_keeps_key_order (world_of heap_people None (fun _ => 7%nat))
           (endpoint_of [] []) (PyRef 0%nat) [1%nat; 2%nat]).
  - apply hash_ok_world_of.
  - apply order_ok_keep.
  - reflexivity.
  - apply all_records_people.
Defined.

(** X3.  [Result(data, endpoint)] touches nothing but the records: every
    other object of the heap, the caller's list among them, is as it was,
    and nothing is logged, written, printed or drawn. *)
Theorem init_changes_only_records w ep data0 es :
  hash_ok w ->
  order_ok ep ->
  records_of (heap w) data0 es ->
  all_records (heap w) es ->
  exists r w',
    Result_init data0 ep w = (Ok r, w')
    /\ (forall l o, l ∉ es -> heap w !! l = Some o -> heap w' !! l = Some o)
    /\ (forall inp, data0 = PyRef inp -> heap w' !! inp = Some (OList es))
    /\ log w' = log w
    /\ files w' = files w
    /\ console w' = console w
    /\ rng_pos w' = rng_pos w.
Proof.
  intros Hhash Hord Hrec Hall.
  destruct (Result_init_full w ep data0 es Hhash Hord Hrec Hall)
    as (mw & h' & d' & es' & fields & Hrun & _ & _ & _ & _ & _ & Hframe & _).
  eexists _, _. split; [exact Hrun|]. simpl.
  split; [exact Hframe|]. split; [|repeat split].
  intros inp ->. simpl in Hrec. apply Hframe; [|exact Hrec].
  intros Hin. destruct (Hall inp Hin) as [d Hd]. congruence.
Qed.

Lemma init_changes_only_records_witness :
  exists r w',
    Result_init (PyRef 0%nat) (endpoint_of [] [])
      (world_of heap_people None (fun _ => 7%nat)) = (Ok r, w')
    /\ (forall l o, l ∉ [1%nat; 2%nat] -> heap_people !! l = Some o ->
                    heap w' !! l = Some o)
    /\ (forall inp, PyRef 0%nat = PyRef inp ->
                    heap w' !! inp = Some (OList [1%nat; 2%nat]))
    /\ log w' = []
    /\ files w' = ∅
    /\ console w' = []
    /\ rng_pos w' = 0%nat.
Proof.
  apply (init_changes_only_records
           (world_of heap_people None (fun _ => 7%nat))
           (endpoint_of [] []) (PyRef 0%nat) [1%nat; 2%nat]).
  - apply hash_ok_world_of.
  - apply order_ok_keep.
  - reflexivity.
  - apply all_records_people.
Defined.

(** ** Columns *)

Lemma columns_fold_filter skip :
  forall ks acc,
    fold_left
      (fun columns column =>
         if py_in column skip then columns else (columns ++ [column])%list)
      ks acc
    = (acc ++ List.filter (fun c => negb (py_in c skip)) ks)%list.
Proof.
  induction ks as [|k ks IH]; intros acc; simpl.
  - now rewrite app_nil_r.
  - rewrite IH. destruct (py_in k skip); simpl; [reflexivity|].
    now rewrite <- app_assoc.
Qed.

Lemma table_columns_run self w e rest d :
  heap w !! data self = Some (OList (e :: rest)) ->
  heap w !! e = Some (ODict d) ->
  table_columns self w
  = (Ok (not_skipped (endpoint self) (Dict.keys d)), w).
Proof.
  intros Hdata He. unfold table_columns, bind, load. rewrite Hdata. simpl.
  unfold load_dict, bind, load. rewrite He. simpl.
  now rewrite columns_fold_filter.
Qed.

Lemma table_columns_world self w : snd (table_columns self w) = w.
Proof.
  unfold table_columns, bind, load.
  destruct (heap w !! data self) as [[d|[|e rest]]|]; simpl; try reflexivity.
  unfold load_dict, bind, load.
  destruct (heap w !! e) as [[d|l]|]; reflexivity.
Qed.

(** X4.  After [Result(data, endpoint)] on at least one record,
    [table_columns] answers the keys of the first stored record that are
    not in the skip list, in the order of that record; these are the fields
    of all the records but the skipped ones, and every stored record has
    each of them, so that no row can miss a column. *)
Theorem init_table_columns w ep data0 es :
  hash_ok w ->
  order_ok ep ->
  records_of (heap w) data0 es ->
  all_records (heap w) es ->
  es <> [] ->
  exists r w' columns stored e d,
    Result_init data0 ep w = (Ok r, w')
    /\ seq_of (heap w') (data r) = Some stored
    /\ head stored = Some e
    /\ heap w' !! e = Some (ODict d)
    /\ table_columns r w' = (Ok columns, w')
    /\ columns = not_skipped ep (Dict.keys d)
    /\ (forall c, c ∈ columns
                  <-> key_of_some (heap w) es c /\ c ∉ skip_list ep)
    /\ has_columns (heap w') columns stored.
Proof.
  intros Hhash Hord Hrec Hall Hne.
  destruct (Result_init_full w ep data0 es Hhash Hord Hrec Hall)
    as (mw & h' & d' & stored & fields & Hrun & Hseq & Hperm & _ & Hfields
        & Hin & _).
  destruct stored as [|e rest].
  { apply Permutation_nil_r in Hperm. contradiction. }
  assert (He : e ∈ es) by (rewrite Hperm; apply list_elem_of_here).
  destruct (Hall e He) as [d0 Hd0].
  pose proof (Hin e d0 He Hd0) as Hde.
  assert (Hdata : h' !! d' = Some (OList (e :: rest))).
  { unfold seq_of in Hseq. destruct (h' !! d') as [[[|]|]|]; simplify_eq.
    reflexivity. }
  assert (Hcols : forall c, c ∈ not_skipped ep (Dict.keys (fill fields d0))
                    <-> key_of_some (heap w) es c /\ c ∉ skip_list ep).
  { intros c. unfold not_skipped. rewrite list_elem_of_In, filter_In.
    rewrite <- list_elem_of_In, keys_fill, Hfields, negb_true_iff.
    rewrite <- not_true_iff_false, py_in_elem. split; [|tauto].
    intros [[Hk|Hk] Hs]; [|tauto]. split; [|exact Hs].
    exists e, d0. auto. }
  eexists _, _, (not_skipped ep (Dict.keys (fill fields d0))), (e :: rest),
    e, (fill fields d0).
  split; [exact Hrun|]. simpl.
  split; [exact Hseq|]. split; [reflexivity|]. split; [exact Hde|].
  split.
  { apply (table_columns_run
             {| endpoint := ep; data := d'; max_widths := mw |}
             (set_heap h' w) e rest (fill fields d0)); assumption. }
  split; [reflexivity|]. split; [exact Hcols|].
  intros l Hl. rewrite <- Hperm in Hl. destruct (Hall l Hl) as [dl Hdl].
  exists (fill fields dl). split; [now apply Hin|].
  intros c Hc. apply keys_get, keys_fill. right.
  now apply Hfields, Hcols.
Qed.

Lemma init_table_columns_witness :
  exists r w' columns stored e d,
    Result_init (PyRef 0%nat) (endpoint_of ["role"] [])
      (world_of heap_people None (fun _ => 7%nat)) = (Ok r, w')
    /\ seq_of (heap w') (data r) = Some stored
    /\ head stored = Some e
    /\ heap w' !! e = Some (ODict d)
    /\ table_columns r w' = (Ok columns, w')
    /\ columns = not_skipped (endpoint_of ["role"] []) (Dict.keys d)
    /\ (forall c, c ∈ columns
                  <-> key_of_some heap_people [1%nat; 2%nat] c
                      /\ c ∉ ["role"])
    /\ has_columns (heap w') columns stored.
Proof.
  apply (init_table_columns (world_of heap_people None (fun _ => 7%nat))
           (endpoint_of ["role"] []) (PyRef 0%nat) [1%nat; 2%nat]).
  - apply hash_ok_world_of.
  - apply order_ok_keep.
  - reflexivity.
  - apply all_records_people.
  - discriminate.
Defined.

(** ** More on rows *)

Lemma yield_rows_negative self columns limit cw :
  limit < 0 ->
  forall es i w,
    0 <= i ->
    yield_rows self columns limit cw i es w = (([], None), w).
Proof.
  intros Hlim [|e es] i w Hi; simpl; [reflexivity|].
  destruct (Z.eqb_spec limit 0); [lia|].
  destruct (Z.gtb_spec i limit); [reflexivity | lia].
Qed.

Lemma yield_rows_unlimited self columns cw :
  forall es i w rows w',
    yield_rows self columns 0 cw i es w = ((rows, None), w') ->
    List.length rows = List.length es.
Proof.
  induction es as [|e es IH]; intros i w rows w'; simpl.
  - now intros [= <- <-].
  - destruct (parse_row self columns cw e w) as [[parsed|ex] w0];
      [|discriminate].
    destruct (yield_rows self columns 0 cw (i + 1) es w0)
      as [[ys ey] wy] eqn:Erest.
    intros [= <- -> <-]. simpl. f_equal. eapply IH, Erest.
Qed.

(** X5.  Under a negative limit [table_rows] yields no row, in any run.  A
    limit of 0 switches the limit off: a run that ends without an exception
    has yielded one row per record, in order, however many records there
    are. *)
Theorem table_rows_limit_edges self columns w :
  (forall limit, limit < 0 ->
     fst (fst (table_rows self columns limit w)) = [])
  /\ (forall rows w',
        table_rows self columns 0 w = ((rows, None), w') ->
        exists cw es,
          available_width self columns w = (Ok cw, w')
          /\ iter_records (data self) w' = (Ok es, w')
          /\ List.length rows = List.length es
          /\ forall n row,
              rows !! n = Some row ->
              exists l, es !! n = Some l
                        /\ parse_row self columns cw l w' = (Ok row, w')).
Proof.
  split.
  - intros limit Hlim. unfold table_rows.
    destruct (available_width self columns w) as [[cw|e] w1]; [|reflexivity].
    destruct (iter_records (data self) w1) as [[es|e] w2]; [|reflexivity].
    now rewrite yield_rows_negative by lia.
  - intros rows w'. unfold table_rows.
    destruct (available_width self columns w) as [[cw|e] w1] eqn:Hwidth;
      [|discriminate].
    destruct (iter_records (data self) w1) as [[es|e] w2] eqn:Hiter;
      [|discriminate].
    pose proof (iter_records_world _ _ _ _ Hiter) as ->.
    intros Hrun. pose proof (yield_rows_unlimited _ _ _ _ _ _ _ _ Hrun) as Hlen.
    apply yield_rows_inv in Hrun as (-> & _ & _ & Hrows).
    exists cw, es. auto.
Qed.

Lemma table_rows_limit_edges_witness :
  fst (fst (table_rows result_people ["name"; "role"] (-1)
              (world_of heap_people_full None (fun _ => 0%nat)))) = []
  /\ exists cw es,
      available_width result_people ["name"; "role"]
        (world_of heap_people_full None (fun _ => 0%nat))
      = (Ok cw, world_of heap_people_full None (fun _ => 0%nat))
      /\ iter_records (data result_people)
           (world_of heap_people_full None (fun _ => 0%nat))
         = (Ok es, world_of heap_people_full None (fun _ => 0%nat))
      /\ List.length [["Alice"; "chair"]; ["Bob"; ""]] = List.length es
      /\ forall n row,
          [["Alice"; "chair"]; ["Bob"; ""]] !! n = Some row ->
          exists l, es !! n = Some l
                    /\ parse_row result_people ["name"; "role"] cw l
                         (world_of heap_people_full None (fun _ => 0%nat))
                       = (Ok row,
                          world_of heap_people_full None (fun _ => 0%nat)).
Proof.
  destruct (table_rows_limit_edges result_people ["name"; "role"]
              (world_of heap_people_full None (fun _ => 0%nat)))
    as [Hneg Hzero].
  split.
  - apply Hneg. lia.
  - apply Hzero. vm_compute. reflexivity.
Defined.

Lemma parse_row_missing self cw l w d :
  heap w !! l = Some (ODict d) ->
  forall columns c,
    c ∈ columns ->
    Dict.get c d = None ->
    exists c0,
      parse_row self columns cw l w = (Raise (KeyError c0), w)
      /\ c0 ∈ columns /\ Dict.get c0 d = None.
Proof.
  intros Hl. unfold parse_row.
  induction columns as [|c1 columns IH]; intros c Hc Hget.
  - now apply not_elem_of_nil in Hc.
  - simpl. unfold bind at 1. unfold bind at 1.
    rewrite (load_dict_run _ _ _ Hl).
    destruct (Dict.get c1 d) as [v|] eqn:E1; simpl.
    + apply elem_of_cons in Hc as [->|Hc]; [congruence|].
      destruct (IH c Hc Hget) as (c0 & Hrun & Hc0 & Hnone).
      exists c0. unfold bind at 1. rewrite Hrun.
      split; [reflexivity|]. split; [now apply list_elem_of_further|exact Hnone].
    + exists c1. split; [reflexivity|]. split; [apply list_elem_of_here|exact E1].
Qed.

Lemma yield_rows_missing self columns limit cw l d post c :
  c ∈ columns ->
  Dict.get c d = None ->
  forall pre i w,
    has_columns (heap w) columns pre ->
    heap w !! l = Some (ODict d) ->
    limit = 0 \/ i + len pre <= limit ->
    exists c0,
      yield_rows self columns limit cw i (pre ++ l :: post) w
      = ((map (row_of self columns cw (heap w)) pre, Some (KeyError c0)), w)
      /\ c0 ∈ columns /\ Dict.get c0 d = None.
Proof.
  intros Hc Hget. induction pre as [|e pre IH]; intros i w Hpre Hl Hlim; simpl.
  - assert (Hgo : negb (limit =? 0) && (i >? limit) = false).
    { unfold len in Hlim. simpl in Hlim.
      destruct (Z.eqb_spec limit 0); [reflexivity|].
      destruct (Z.gtb_spec i limit); [lia | reflexivity]. }
    rewrite Hgo.
    destruct (parse_row_missing self cw l w d Hl columns c Hc Hget)
      as (c0 & Hrun & Hc0 & Hnone).
    exists c0. now rewrite Hrun.
  - assert (Hgo : negb (limit =? 0) && (i >? limit) = false).
    { unfold len in Hlim. simpl in Hlim.
      destruct (Z.eqb_spec limit 0); [reflexivity|].
      destruct (Z.gtb_spec i limit); [lia | reflexivity]. }
    rewrite Hgo.
    destruct (Hpre e) as (de & Hde & Hcols); [apply list_elem_of_here|].
    rewrite (parse_row_run _ _ _ _ _ _ Hde Hcols).
    destruct (IH (i + 1) w) as (c0 & Hrun & Hc0 & Hnone).
    { intros l' Hl'. apply Hpre. now apply list_elem_of_further. }
    { exact Hl. }
    { unfold len in *. simpl in Hlim. lia. }
    exists c0. now rewrite Hrun.
Qed.

(** X6.  When [available_width] answers a width, the records before the
    one of index [length before] have the columns, that one lacks a column
    and the limit reaches it, [table_rows] yields the rows of the records
    before it and then raises [KeyError] for a column that this record
    lacks. *)
Theorem table_rows_missing_column
    self columns limit w cw w1 (before : list loc) l d after c :
  available_width self columns w = (Ok cw, w1) ->
  seq_of (heap w) (data self) = Some (before ++ l :: after)%list ->
  has_columns (heap w) columns before ->
  heap w !! l = Some (ODict d) ->
  c ∈ columns ->
  Dict.get c d = None ->
  limit = 0 \/ len before <= limit ->
  exists c0,
    table_rows self columns limit w
    = ((map (row_of self columns cw (heap w)) before, Some (KeyError c0)),
       w1)
    /\ c0 ∈ columns /\ Dict.get c0 d = None.
Proof.
  intros Hwidth Hseq Hpre Hl Hc Hget Hlim.
  pose proof (available_width_heap _ _ _ _ _ Hwidth) as Hheap.
  unfold table_rows. rewrite Hwidth.
  rewrite (iter_records_run w1 (data self) (before ++ l :: after)%list)
    by (now rewrite Hheap).
  destruct (yield_rows_missing self columns limit cw l d after c Hc Hget
              before 0 w1) as (c0 & Hrun & Hc0 & Hnone).
  - now rewrite Hheap.
  - now rewrite Hheap.
  - destruct Hlim; [now left | right; lia].
  - exists c0. rewrite Hrun, Hheap. auto.
Qed.

Lemma table_rows_missing_column_witness :
  exists c0,
    table_rows result_people ["name"; "role"] 25
      (world_of heap_people None (fun _ => 0%nat))
    = ((map (row_of result_people ["name"; "role"] 60 heap_people)
          [1%nat], Some (KeyError c0)),
       world_of heap_people None (fun _ => 0%nat))
    /\ c0 ∈ ["name"; "role"] /\ Dict.get c0 [("name", "Bob")] = None.
Proof.
  apply (table_rows_missing_column result_people ["name"; "role"] 25
           (world_of heap_people None (fun _ => 0%nat)) 60
           (world_of heap_people None (fun _ => 0%nat))
           [1%nat] 2%nat [("name", "Bob")] [] "role").
  - vm_compute. reflexivity.
  - reflexivity.
  - intros l Hl. apply list_elem_of_singleton in Hl as ->.
    eexists. split; [reflexivity|]. intros c Hc.
    apply elem_of_cons in Hc as [->|Hc];
      [|apply list_elem_of_singleton in Hc as ->]; eexists; reflexivity.
  - reflexivity.
  - apply list_elem_of_further, list_elem_of_here.
  - reflexivity.
  - right. unfold len. simpl. lia.
Defined.

Lemma table_rows_world self columns limit w :
  snd (table_rows self columns limit w) = w
  \/ snd (table_rows self columns limit w) = add_log WARNING too_small w.
Proof.
  destruct (available_width self columns w) as [r w1] eqn:Hwidth.
  pose proof (available_width_world _ _ _ _ _ Hwidth) as Hw1.
  unfold table_rows. rewrite Hwidth.
  destruct r as [cw|e]; [|exact Hw1].
  destruct (iter_records (data self) w1) as [[es|e] w2] eqn:Hiter;
    pose proof (iter_records_world _ _ _ _ Hiter) as ->; [|exact Hw1].
  destruct (yield_rows self columns limit cw 0 es w1) as [[rows stop] w3]
    eqn:Hrows.
  apply yield_rows_inv in Hrows as (-> & _). exact Hw1.
Qed.

(** X7.  [table_columns], [available_width] and [table_rows] read and do
    not write: whatever they answer or raise, the world after them is the
    world before, but for the one warning that [available_width] may
    log. *)
Theorem rendering_reads_only self columns limit w :
  snd (table_columns self w) = w
  /\ (snd (available_width self columns w) = w
      \/ snd (available_width self columns w) = add_log WARNING too_small w)
  /\ (snd (table_rows self columns limit w) = w
      \/ snd (table_rows self columns limit w) = add_log WARNING too_small w).
Proof.
  split; [apply table_columns_world|]. split; [|apply table_rows_world].
  destruct (available_width self columns w) as [r w1] eqn:Hwidth.
  exact (available_width_world _ _ _ _ _ Hwidth).
Qed.

(** ** More on the width *)

Lemma remaining_le self w : remaining self w <= surface_width w.
Proof.
  unfold remaining. generalize (surface_width w).
  induction (max_widths self) as [|[k n] mw IH]; intros z; simpl; [lia|].
  specialize (IH (z - Z.of_nat n)). lia.
Qed.

(** X8.  With more columns than fields in [max_widths], [available_width]
    does not raise, and the width it answers is between 0 and the surface
    width. *)
Theorem available_width_bounds self columns w :
  len (max_widths self) < len columns ->
  exists cw w',
    available_width self columns w = (Ok cw, w')
    /\ 0 <= cw <= surface_width w.
Proof.
  intros Hlt. rewrite available_width_cases.
  assert (0 <= len (max_widths self)) by (unfold len; lia).
  assert (0 <= surface_width w)
    by (unfold surface_width; destruct (terminal w); lia).
  pose proof (remaining_le self w).
  destruct (Z.eqb_spec (len columns) 0); [lia|].
  destruct (Z.ltb_spec (remaining self w) 0).
  - eexists _, _. split; [reflexivity|]. split.
    + apply Z.quot_pos; lia.
    + apply Z.quot_le_upper_bound; nia.
  - destruct (Z.eqb_spec (len columns - len (max_widths self)) 0); [lia|].
    eexists _, _. split; [reflexivity|]. split.
    + apply Z.quot_pos; lia.
    + apply Z.quot_le_upper_bound; nia.
Qed.

Lemma available_width_bounds_witness :
  exists cw w',
    available_width result_people ["name"; "role"]
      (world_of heap_people_full (Some 6%nat) (fun _ => 0%nat)) = (Ok cw, w')
    /\ 0 <= cw
          <= surface_width
               (world_of heap_people_full (Some 6%nat) (fun _ => 0%nat)).
Proof.
  apply (available_width_bounds result_people ["name"; "role"]
           (world_of heap_people_full (Some 6%nat) (fun _ => 0%nat))).
  vm_compute. reflexivity.
Defined.

(** ** Rendering *)

Lemma while_color_once_run fuel self w :
  while_color (S fuel) self [] None w
  = (Ok (drawn_color w 0), advance_rng w).
Proof.
  cbn [while_color]. simpl draw_again. cbv iota.
  unfold bind, color, drawn_color. rewrite Nat.add_0_r. simpl.
  now destruct fuel.
Qed.

(** A change of the world that leaves the heap and the terminal alone and
    does not mind the log does not show in what [table_rows] yields. *)
Section Unseen.

Variable T : world -> world.
Hypothesis T_heap : forall w, heap (T w) = heap w.
Hypothesis T_terminal : forall w, terminal (T w) = terminal w.
Hypothesis T_log : forall l msg w, T (add_log l msg w) = add_log l msg (T w).

Lemma parse_row_unseen self cw l :
  forall columns w,
    exists r,
      parse_row self columns cw l w = (r, w)
      /\ parse_row self columns cw l (T w) = (r, T w).
Proof.
  unfold parse_row. induction columns as [|c columns IH]; intros w; simpl.
  - eexists. split; reflexivity.
  - destruct (IH w) as (r & Hr & HrT).
    unfold bind at 1 3. unfold bind at 1 3. unfold load_dict, bind, load.
    rewrite T_heap.
    destruct (heap w !! l) as [[d|]|]; simpl;
      [|eexists; split; reflexivity..].
    destruct (Dict.get c d) as [content|]; simpl;
      [|eexists; split; reflexivity].
    unfold bind. unfold load_dict, bind, load in Hr, HrT.
    rewrite Hr, HrT. destruct r; eexists; split; reflexivity.
Qed.

Lemma yield_rows_unseen self columns limit cw :
  forall es i w,
    exists x,
      yield_rows self columns limit cw i es w = (x, w)
      /\ yield_rows self columns limit cw i es (T w) = (x, T w).
Proof.
  induction es as [|e es IH]; intros i w; simpl.
  - eexists. split; reflexivity.
  - destruct (negb (limit =? 0) && (i >? limit));
      [eexists; split; reflexivity|].
    destruct (parse_row_unseen self cw e columns w) as (r & -> & ->).
    destruct r as [parsed|ex]; [|eexists; split; reflexivity].
    destruct (IH (i + 1) w) as ([ys ey] & -> & ->).
    eexists. split; reflexivity.
Qed.

Lemma table_rows_unseen self columns limit w x w1 :
  table_rows self columns limit w = (x, w1) ->
  table_rows self columns limit (T w) = (x, T w1).
Proof.
  unfold table_rows. rewrite !available_width_cases.
  unfold surface_width, remaining, surface_width. rewrite T_terminal.
  assert (Hloop : forall cw w0 y w2,
             match iter_records (data self) w0 with
             | (Ok entries, w'') =>
                 yield_rows self columns limit cw 0 entries w''
             | (Raise e, w'') => (([], Some e), w'')
             end = (y, w2) ->
             match iter_records (data self) (T w0) with
             | (Ok entries, w'') =>
                 yield_rows self columns limit cw 0 entries w''
             | (Raise e, w'') => (([], Some e), w'')
             end = (y, T w2)).
  { intros cw w0 y w2. unfold iter_records, bind, load. rewrite T_heap.
    destruct (heap w0 !! data self) as [[[|]|es]|]; simpl;
      try (intros [= <- <-]; reflexivity).
    destruct (yield_rows_unseen self columns limit cw es 0 w0)
      as (z & -> & ->). now intros [= <- <-]. }
  destruct (len columns =? 0); [now intros [= <- <-]|].
  match goal with
  | |- context [if ?b then _ else _] => destruct b
  end.
  - intros H. apply Hloop in H. now rewrite T_log in H.
  - destruct (len columns - len (max_widths self) =? 0);
      [now intros [= <- <-]|]. apply Hloop.
Qed.

End Unseen.

Lemma bind_run {A B} (m : M A) (k : A -> M B) w a w' :
  m w = (Ok a, w') -> bind m k w = k a w'.
Proof. intros H. unfold bind. now rewrite H. Qed.

Lemma bind_raise {A B} (m : M A) (k : A -> M B) w e w' :
  m w = (Raise e, w') -> bind m k w = (Raise e, w').
Proof. intros H. unfold bind. now rewrite H. Qed.

Lemma advance_by_heap n : forall w, heap (advance_by n w) = heap w.
Proof. induction n as [|n IH]; intros w; simpl; [|rewrite IH]; reflexivity. Qed.

Lemma advance_by_terminal n :
  forall w, terminal (advance_by n w) = terminal w.
Proof. induction n as [|n IH]; intros w; simpl; [|rewrite IH]; reflexivity. Qed.

Lemma advance_by_log n :
  forall l msg w,
    advance_by n (add_log l msg w) = add_log l msg (advance_by n w).
Proof.
  induction n as [|n IH]; intros l msg w; simpl; [reflexivity|].
  now rewrite <- IH.
Qed.

Lemma advance_by_console n : forall w, console (advance_by n w) = console w.
Proof. induction n as [|n IH]; intros w; simpl; [|rewrite IH]; reflexivity. Qed.

Lemma advance_by_rng_pos n :
  forall w, rng_pos (advance_by n w) = (rng_pos w + n)%nat.
Proof.
  induction n as [|n IH]; intros w; simpl; [lia|]. rewrite IH. simpl. lia.
Qed.

Lemma advance_by_slept n : forall w, slept (advance_by n w) = slept w.
Proof. induction n as [|n IH]; intros w; simpl; [|rewrite IH]; reflexivity. Qed.

Lemma advance_by_log_field n : forall w, log (advance_by n w) = log w.
Proof. induction n as [|n IH]; intros w; simpl; [|rewrite IH]; reflexivity. Qed.

Lemma advance_by_render n :
  forall w, render_error (advance_by n w) = render_error w.
Proof. induction n as [|n IH]; intros w; simpl; [|rewrite IH]; reflexivity. Qed.

Lemma drawn_columns_next w columns :
  imap (fun i column =>
          {| header := str_capitalize w column; style := drawn_color w (S i);
             header_style := "" |}) columns
  = drawn_columns (advance_rng w) columns.
Proof.
  unfold drawn_columns. apply imap_ext. intros i c _.
  unfold drawn_color. simpl. now rewrite Nat.add_succ_r.
Qed.

(** The loop of the columns draws one color per column. *)
Lemma add_columns_run fuel self :
  forall columns t w,
    add_columns (S fuel) self [] columns t w
    = (Ok (set_columns (columns_of t ++ drawn_columns w columns) t),
       advance_by (List.length columns) w).
Proof.
  unfold add_columns. induction columns as [|c columns IH]; intros t w.
  - simpl. unfold ret. destruct t; simpl. now rewrite app_nil_r.
  - cbn [fold_each].
    erewrite bind_run.
    2:{ erewrite bind_run by apply while_color_once_run.
        erewrite bind_run by reflexivity. reflexivity. }
    rewrite IH. cbn [List.length advance_by].
    f_equal. destruct t; unfold set_columns, add_column; simpl.
    f_equal. f_equal. rewrite <- app_assoc. f_equal.
    unfold drawn_columns at 2. simpl. f_equal.
    symmetry. apply drawn_columns_next.
Qed.

Lemma add_rows_run :
  forall rows t w,
    fold_each rows (fun t row => ret (add_row row t)) t w
    = (Ok (fold_left (fun t row => add_row row t) rows t), w).
Proof.
  induction rows as [|r rows IH]; intros t w; simpl; [reflexivity|].
  unfold bind. simpl. apply IH.
Qed.

Lemma add_rows_table rows :
  forall t,
    fold_left (fun t row => add_row row t) rows t
    = {| title_of := title_of t; caption := caption t;
         columns_of := columns_of t; rows_of := rows_of t ++ rows;
         show_footer := show_footer t; row_styles := row_styles t;
         border_style := border_style t; box := box t;
         pad_edge := pad_edge t |}.
Proof.
  induction rows as [|r rows IH]; intros t; simpl.
  - destruct t; simpl. now rewrite app_nil_r.
  - rewrite IH. simpl. now rewrite <- app_assoc.
Qed.

(** [table] up to the printing: the table it has built when
    [table_columns] answers and [table_rows] ends without an exception. *)
Lemma table_built fuel self limit w columns rows w1 :
  table_columns self w = (Ok columns, w) ->
  table_rows self columns limit w = ((rows, None), w1) ->
  table (S fuel) self limit w
  = console_print (static_table self w columns rows)
      (advance_by (List.length columns) w1).
Proof.
  intros Hcols Hrows. unfold table.
  rewrite (bind_run _ _ _ _ _ Hcols).
  rewrite (bind_run _ _ _ _ _ (add_columns_run fuel self columns _ w)).
  erewrite bind_run.
  2:{ unfold for_gen.
      rewrite (table_rows_unseen (advance_by (List.length columns))
                 (advance_by_heap _) (advance_by_terminal _)
                 (advance_by_log _) _ _ _ _ _ _ Hrows).
      rewrite add_rows_run, add_rows_table. reflexivity. }
  reflexivity.
Qed.

Lemma render_after_rows self columns limit w x w1 n :
  table_rows self columns limit w = (x, w1) ->
  render_error (advance_by n w1) = render_error w.
Proof.
  intros Hrows. rewrite advance_by_render.
  pose proof (table_rows_world self columns limit w) as Hw1.
  rewrite Hrows in Hw1. simpl in Hw1. destruct Hw1 as [-> | ->]; reflexivity.
Qed.

(** X9.  When [table_columns] answers the columns, [table_rows] ends
    without an exception and [rich] renders the table, [table] prints one
    table, after what the console held: its title is the title of the
    endpoint, it has a column per column name, headed by the capitalized
    name and colored by the next draw, and its rows are the rows yielded.
    It draws once per column and leaves the heap as it was. *)
Theorem table_prints fuel self limit w columns rows w1 :
  table_columns self w = (Ok columns, w) ->
  table_rows self columns limit w = ((rows, None), w1) ->
  render_error w (static_table self w columns rows) = None ->
  table (S fuel) self limit w
  = (Ok tt,
     add_console (static_table self w columns rows)
       (advance_by (List.length columns) w1))
  /\ heap w1 = heap w.
Proof.
  intros Hcols Hrows Hrender. split.
  - rewrite (table_built _ _ _ _ _ _ _ Hcols Hrows). unfold console_print.
    rewrite (render_after_rows _ _ _ _ _ _ _ Hrows). now rewrite Hrender.
  - pose proof (table_rows_world self columns limit w) as Haux.
    rewrite Hrows in Haux. simpl in Haux. destruct Haux as [-> | ->];
      reflexivity.
Qed.

Lemma table_prints_witness :
  table 1 result_people 25 (world_of heap_people_full None (fun _ => 7%nat))
  = (Ok tt,
     add_console
       (static_table result_people
          (world_of heap_people_full None (fun _ => 7%nat))
          ["name"; "role"] [["Alice"; "chair"]; ["Bob"; ""]])
       (advance_by (List.length ["name"; "role"])
          (world_of heap_people_full None (fun _ => 7%nat))))
  /\ heap (world_of heap_people_full None (fun _ => 7%nat))
     = heap (world_of heap_people_full None (fun _ => 7%nat)).
Proof.
  apply (table_prints 0 result_people 25
           (world_of heap_people_full None (fun _ => 7%nat))
           ["name"; "role"] [["Alice"; "chair"]; ["Bob"; ""]]
           (world_of heap_people_full None (fun _ => 7%nat))).
  - vm_compute. reflexivity.
  - vm_compute. reflexivity.
  - reflexivity.
Defined.

(** X10.  [table] prints nothing unless all went well: when it raises, the
    console and the heap are as they were, and the exception is the one
    [table_columns] raised, the one that ended [table_rows], or the one
    [rich] raised when it rendered the table. *)
Theorem table_raises_without_printing fuel self limit w e w' :
  table (S fuel) self limit w = (Raise e, w') ->
  console w' = console w
  /\ heap w' = heap w
  /\ (table_columns self w = (Raise e, w)
      \/ (exists columns rows w1,
             table_columns self w = (Ok columns, w)
             /\ table_rows self columns limit w = ((rows, Some e), w1))
      \/ (exists columns rows w1,
             table_columns self w = (Ok columns, w)
             /\ table_rows self columns limit w = ((rows, None), w1)
             /\ render_error w (static_table self w columns rows)
                = Some e)).
Proof.
  destruct (table_columns self w) as [[columns|ec] w0] eqn:Hcols;
    pose proof (table_columns_world self w) as Hw0;
    rewrite Hcols in Hw0; simpl in Hw0; subst w0.
  - destruct (table_rows self columns limit w) as [[rows stop] w1] eqn:Hrows.
    pose proof (table_rows_world self columns limit w) as Hw1.
    rewrite Hrows in Hw1. simpl in Hw1.
    destruct stop as [es|].
    + unfold table. rewrite (bind_run _ _ _ _ _ Hcols).
      rewrite (bind_run _ _ _ _ _ (add_columns_run fuel self columns _ w)).
      erewrite bind_raise.
      2:{ unfold for_gen.
          rewrite (table_rows_unseen (advance_by (List.length columns))
                     (advance_by_heap _) (advance_by_terminal _)
                     (advance_by_log _) _ _ _ _ _ _ Hrows).
          rewrite add_rows_run. reflexivity. }
      intros [= <- <-]. rewrite advance_by_console, advance_by_heap.
      split; [|split].
      * destruct Hw1 as [-> | ->]; reflexivity.
      * destruct Hw1 as [-> | ->]; reflexivity.
      * right. left. exists columns, rows, w1. auto.
    + rewrite (table_built _ _ _ _ _ _ _ Hcols Hrows). unfold console_print.
      rewrite (render_after_rows _ _ _ _ _ _ _ Hrows).
      destruct (render_error w (static_table self w columns rows))
        as [er|] eqn:Hrender; [|discriminate].
      intros [= <- <-]. rewrite advance_by_console, advance_by_heap.
      split; [|split].
      * destruct Hw1 as [-> | ->]; reflexivity.
      * destruct Hw1 as [-> | ->]; reflexivity.
      * right. right. exists columns, rows, w1. auto.
  - unfold table. rewrite (bind_raise _ _ _ _ _ Hcols).
    intros [= <- <-]. auto.
Qed.

Lemma table_raises_without_printing_witness :
  console (world_markup heap_people_full)
  = console (world_markup heap_people_full)
  /\ heap (world_markup heap_people_full)
     = heap (world_markup heap_people_full)
  /\ (table_columns result_people (world_markup heap_people_full)
      = (Raise MarkupError, world_markup heap_people_full)
      \/ (exists columns rows w1,
             table_columns result_people (world_markup heap_people_full)
             = (Ok columns, world_markup heap_people_full)
             /\ table_rows result_people columns 25
                  (world_markup heap_people_full)
                = ((rows, Some MarkupError), w1))
      \/ (exists columns rows w1,
             table_columns result_people (world_markup heap_people_full)
             = (Ok columns, world_markup heap_people_full)
             /\ table_rows result_people columns 25
                  (world_markup heap_people_full)
                = ((rows, None), w1)
             /\ render_error (world_markup heap_people_full)
                  (static_table result_people
                     (world_markup heap_people_full) columns rows)
                = Some MarkupError)).
Proof.
  apply (table_raises_without_printing 0 result_people 25
           (world_markup heap_people_full) MarkupError
           (advance_by 2 (world_markup heap_people_full))).
  vm_compute. reflexivity.
Defined.

Lemma table_columns_unseen (T : world -> world) self w :
  (forall w0, heap (T w0) = heap w0) ->
  table_columns self (T w) = (fst (table_columns self w), T w).
Proof.
  intros T_heap. unfold table_columns, bind, load. rewrite T_heap.
  destruct (heap w !! data self) as [[d|[|e rest]]|]; simpl; try reflexivity.
  unfold load_dict, bind, load. rewrite T_heap.
  destruct (heap w !! e) as [[d|l]|]; reflexivity.
Qed.

Lemma add_rows_beat_run :
  forall rows t w,
    fold_each rows (fun t row => beat 10 (ret (add_row row t))) t w
    = (Ok (fold_left (fun t row => add_row row t) rows t),
       Nat.iter (List.length rows) (add_sleep 10) w).
Proof.
  induction rows as [|r rows IH]; intros t w; [reflexivity|].
  cbn [fold_each]. erewrite bind_run by reflexivity. rewrite IH.
  cbn [List.length fold_left]. f_equal.
  clear. induction (List.length rows) as [|n IHn]; [reflexivity|].
  simpl in *. now rewrite IHn.
Qed.

Lemma for_gen_live_run self columns limit rows t w w1 :
  table_rows self columns limit w = ((rows, None), w1) ->
  for_gen (table_rows self columns limit)
    (fun t row => beat 10 (ret (add_row row t))) t w
  = (Ok (fold_left (fun t row => add_row row t) rows t),
     Nat.iter (List.length rows) (add_sleep 10) w1).
Proof.
  intros Hrows. unfold for_gen. now rewrite Hrows, add_rows_beat_run.
Qed.

Lemma iter_sleep_fields n :
  forall w,
    slept (Nat.iter n (add_sleep 10) w) = (slept w + 10 * n)%nat
    /\ heap (Nat.iter n (add_sleep 10) w) = heap w
    /\ rng_pos (Nat.iter n (add_sleep 10) w) = rng_pos w
    /\ log (Nat.iter n (add_sleep 10) w) = log w
    /\ console (Nat.iter n (add_sleep 10) w) = console w
    /\ render_error (Nat.iter n (add_sleep 10) w) = render_error w.
Proof.
  induction n as [|n IH]; intros w; simpl.
  - repeat split; lia.
  - destruct (IH w) as (-> & -> & -> & -> & -> & ->). repeat split; lia.
Qed.

(** X11.  When [rich] renders the empty table, [table_columns] answers the
    columns, [table_rows] ends without an exception and [rich] renders the
    finished table, [table_live] leaves on the cleared console one table:
    the title of the endpoint between two emoji marks, the styled caption,
    a bold header per column colored by the next draw, the rows yielded,
    the footer, the alternating row styles, the yellow border, the minimal
    box and no edge padding.  It pauses ten times [pause] after each of its
    nine steps and after each row, draws once per column and leaves the
    heap as it was. *)
Theorem table_live_prints fuel self limit w columns rows w1 :
  render_error w (new_table None) = None ->
  table_columns self w = (Ok columns, w) ->
  table_rows self columns limit w = ((rows, None), w1) ->
  render_error w (live_table self (clear_console w) columns rows) = None ->
  exists w2,
    table_live (S fuel) self limit w = (Ok tt, w2)
    /\ console w2 = [live_table self (clear_console w) columns rows]
    /\ slept w2 = (slept w + 10 * (9 + List.length rows))%nat
    /\ rng_pos w2 = (rng_pos w + List.length columns)%nat
    /\ heap w2 = heap w
    /\ log w2 = log w1.
Proof.
  intros Hstart Hcols Hrows Hrender.
  set (T := fun w0 : world =>
              add_sleep 10 (add_sleep 10 (add_sleep 10 (add_sleep 10
                (add_sleep 10
                   (advance_by (List.length columns) (clear_console w0))))))).
  assert (Hrows' : table_rows self columns limit (T w) = ((rows, None), T w1)).
  { apply (table_rows_unseen T); [| | |exact Hrows]; unfold T.
    - intros w0. simpl. now rewrite advance_by_heap.
    - intros w0. simpl. now rewrite advance_by_terminal.
    - intros l msg w0. simpl.
      change (clear_console (add_log l msg w0))
        with (add_log l msg (clear_console w0)).
      now rewrite advance_by_log. }
  pose proof (table_rows_world self columns limit w) as Hw1.
  rewrite Hrows in Hw1. simpl in Hw1.
  destruct (iter_sleep_fields (List.length rows) (T w1))
    as (Hs & Hh & Hr & Hl & Hc & Hre).
  assert (HreT : render_error (T w1) = render_error w).
  { unfold T. simpl. rewrite advance_by_render.
    destruct Hw1 as [-> | ->]; reflexivity. }
  exists (add_console (live_table self (clear_console w) columns rows)
            (add_sleep 10 (add_sleep 10 (add_sleep 10 (add_sleep 10
               (Nat.iter (List.length rows) (add_sleep 10) (T w1))))))).
  split.
  - unfold table_live.
    rewrite (bind_run _ _ _ tt (clear_console w)) by reflexivity.
    rewrite (bind_run _ _ _ tt (clear_console w))
      by (unfold live_start; simpl; now rewrite Hstart).
    rewrite (bind_run _ _ _ columns (clear_console w)).
    2:{ rewrite (table_columns_unseen clear_console) by reflexivity.
        now rewrite Hcols. }
    erewrite bind_run.
    2:{ unfold beat. erewrite bind_run by apply add_columns_run.
        reflexivity. }
    do 4 (erewrite bind_run by reflexivity).
    erewrite bind_run.
    2:{ apply for_gen_live_run. exact Hrows'. }
    do 4 (erewrite bind_run by reflexivity).
    unfold console_print.
    match goal with
    | |- context [add_console ?t _] =>
        assert (Ht : t = live_table self (clear_console w) columns rows)
          by (rewrite add_rows_table; reflexivity);
        rewrite Ht
    end.
    cbn [render_error add_sleep]. rewrite Hre, HreT, Hrender. reflexivity.
  - simpl. rewrite Hs, Hh, Hr, Hl, Hc. unfold T. simpl.
    rewrite advance_by_slept, advance_by_rng_pos, advance_by_heap,
      advance_by_log_field, advance_by_console. simpl.
    split; [|split; [|split; [|split]]].
    + reflexivity.
    + destruct Hw1 as [-> | ->]; simpl; lia.
    + destruct Hw1 as [-> | ->]; simpl; lia.
    + destruct Hw1 as [-> | ->]; reflexivity.
    + reflexivity.
Qed.

Lemma table_live_prints_witness :
  exists w2,
    table_live 1 result_people 25
      (world_of heap_people_full None (fun _ => 7%nat)) = (Ok tt, w2)
    /\ console w2
       = [live_table result_people
            (clear_console (world_of heap_people_full None (fun _ => 7%nat)))
            ["name"; "role"] [["Alice"; "chair"]; ["Bob"; ""]]]
    /\ slept w2 = (0 + 10 * (9 + 2))%nat
    /\ rng_pos w2 = (0 + 2)%nat
    /\ heap w2 = heap_people_full
    /\ log w2 = [].
Proof.
  apply (table_live_prints 0 result_people 25
           (world_of heap_people_full None (fun _ => 7%nat))
           ["name"; "role"] [["Alice"; "chair"]; ["Bob"; ""]]
           (world_of heap_people_full None (fun _ => 7%nat))).
  - reflexivity.
  - vm_compute. reflexivity.
  - vm_compute. reflexivity.
  - reflexivity.
Defined.

(** ** Fetching, when the server answers *)

Lemma alloc_records_run :
  forall (records : json) w,
    exists ls h',
      map_each records (fun d => alloc (ODict d)) w = (Ok ls, set_heap h' w)
      /\ Forall2 (fun l d => h' !! l = Some (ODict d)) ls records
      /\ (forall l o, heap w !! l = Some o -> h' !! l = Some o)
      /\ (forall l, l ∈ ls -> heap w !! l = None)
      /\ NoDup ls.
Proof.
  induction records as [|d records IH]; intros w.
  - exists [], (heap w). simpl. unfold ret. rewrite set_heap_id.
    split; [reflexivity|]. split; [constructor|]. split; [auto|].
    split; [|constructor].
    intros l Hl. now apply not_elem_of_nil in Hl.
  - destruct (alloc_run (ODict d) w) as [Hrun Hfresh].
    set (l1 := fresh (dom (heap w))) in *.
    destruct (IH (set_heap (<[l1 := ODict d]> (heap w)) w))
      as (ls & h' & Hrest & Hall & Hsub & Hnew & Hnd).
    exists (l1 :: ls), h'. cbn [map_each].
    rewrite (bind_run _ _ _ _ _ Hrun), (bind_run _ _ _ _ _ Hrest).
    split; [reflexivity|]. split; [|split; [|split]].
    + constructor; [|exact Hall]. apply Hsub. simpl. apply lookup_insert_eq.
    + intros l o Hl. apply Hsub. simpl. rewrite lookup_insert_ne; [exact Hl|].
      intros <-. congruence.
    + intros l Hl. apply elem_of_cons in Hl as [->|Hl]; [exact Hfresh|].
      specialize (Hnew l Hl). simpl in Hnew.
      destruct (decide (l1 = l)) as [<-|Hne]; [exact Hfresh|].
      now rewrite lookup_insert_ne in Hnew by exact Hne.
    + constructor; [|exact Hnd]. intros Hin. specialize (Hnew l1 Hin).
      simpl in Hnew. now rewrite lookup_insert_eq in Hnew.
Qed.

Lemma Response_json_run r w records :
  json_body r = Some records ->
  exists l ls h',
    Response_json r w = (Ok (PyRef l), set_heap h' w)
    /\ h' !! l = Some (OList ls)
    /\ Forall2 (fun l d => h' !! l = Some (ODict d)) ls records
    /\ (forall l o, heap w !! l = Some o -> h' !! l = Some o)
    /\ (forall l, l ∈ ls -> heap w !! l = None)
    /\ NoDup ls.
Proof.
  intros Hbody. unfold Response_json. rewrite Hbody.
  destruct (alloc_records_run records w)
    as (ls & h1 & Hrun & Hall & Hsub & Hnew & Hnd).
  rewrite (bind_run _ _ _ _ _ Hrun).
  destruct (alloc_run (OList ls) (set_heap h1 w)) as [Hlist Hfresh].
  simpl in Hfresh. set (l := fresh (dom h1)) in *.
  rewrite (bind_run _ _ _ _ _ Hlist).
  exists l, ls, (<[l := OList ls]> h1). split; [reflexivity|].
  split; [apply lookup_insert_eq|].
  split; [|split; [|split; [exact Hnew | exact Hnd]]].
  - eapply Forall2_impl; [exact Hall|]. intros l0 d0 H0.
    rewrite lookup_insert_ne; [exact H0|]. intros <-. congruence.
  - intros l0 o Hl0. rewrite lookup_insert_ne; [now apply Hsub|].
    intros <-. apply Hsub in Hl0. congruence.
Qed.




Lemma order_ok_keep_order ep : order ep = keep_order -> order_ok ep.
Proof.
  intros Hk h d es h' d' Hseq. rewrite Hk. intros [= <- <-]. split; [auto|].
  exists es. split; [exact Hseq | reflexivity].
Qed.


(** ** The client *)

Lemma lstrip_slash_head s s' : lstrip_slash s <> String "/" s'.
Proof.
  induction s as [|a s IH]; simpl; [discriminate|].
  destruct (Ascii.eqb_spec a "/") as [->|Hne]; [exact IH|].
  intros [= -> _]. contradiction.
Qed.

Lemma rstrip_slash_head s a r :
  rstrip_slash s = String a r -> exists s', s = String a s'.
Proof.
  destruct s as [|b s]; simpl; [discriminate|].
  destruct (rstrip_slash s).
  - destruct (Ascii.eqb b "/"); [discriminate|]. intros [= <- _]. eauto.
  - intros [= <- _]. eauto.
Qed.

Lemma rstrip_slash_last s s' : rstrip_slash s <> s' ++ "/".
Proof.
  revert s'. induction s as [|a s IH]; intros s'; simpl.
  - destruct s'; discriminate.
  - destruct (rstrip_slash s) as [|b r] eqn:Er.
    + destruct (Ascii.eqb_spec a "/") as [->|Hne].
      * destruct s'; discriminate.
      * destruct s' as [|c s']; simpl;
          [intros [= ->]; contradiction | destruct s'; discriminate].
    + destruct s' as [|c s']; simpl.
      * discriminate.
      * intros [= -> Hr]. now apply (IH s').
Qed.

Lemma rstrip_slash_fixed s :
  (forall s', s <> s' ++ "/") -> rstrip_slash s = s.
Proof.
  induction s as [|a s IH]; intros Hs; [reflexivity|]. simpl.
  rewrite IH.
  - destruct s; [|reflexivity].
    destruct (Ascii.eqb_spec a "/") as [->|Hne]; [|reflexivity].
    now specialize (Hs "").
  - intros s' ->. now apply (Hs (String a s')).
Qed.

Lemma lstrip_slash_fixed s :
  (forall s', s <> String "/" s') -> lstrip_slash s = s.
Proof.
  destruct s as [|a s]; intros Hs; [reflexivity|]. simpl.
  destruct (Ascii.eqb_spec a "/") as [->|Hne]; [|reflexivity].
  now specialize (Hs s).
Qed.

Lemma strip_slash_ends s :
  (forall s', strip_slash s <> String "/" s')
  /\ (forall s', strip_slash s <> s' ++ "/").
Proof.
  unfold strip_slash. split; [|intros s'; apply rstrip_slash_last].
  intros s' H. apply rstrip_slash_head in H as [s'' H].
  now apply lstrip_slash_head in H.
Qed.

(** X13.  The base URL that [Client(baseurl, quiet)] keeps neither starts
    nor ends with a slash; it is the default one, stripped, when the
    argument is [None] or empty, and the argument itself when that has no
    slash at either end. *)
Theorem Client_init_baseurl default_baseurl baseurl0 quiet0 :
  let self := Client_init default_baseurl baseurl0 quiet0 in
  (forall s', baseurl self <> String "/" s')
  /\ (forall s', baseurl self <> s' ++ "/")
  /\ (baseurl0 = None \/ baseurl0 = Some "" ->
      baseurl self = strip_slash default_baseurl)
  /\ (forall b, baseurl0 = Some b -> b <> "" ->
                (forall s', b <> String "/" s') ->
                (forall s', b <> s' ++ "/") ->
                baseurl self = b)
  /\ quiet self = quiet0.
Proof.
  simpl. split; [apply strip_slash_ends|]. split; [apply strip_slash_ends|].
  split; [|split; [|reflexivity]].
  - intros [-> | ->]; reflexivity.
  - intros b -> Hb Hl Hr. rewrite (str_truthy_true _ Hb).
    unfold strip_slash. rewrite (lstrip_slash_fixed _ Hl).
    now apply rstrip_slash_fixed.
Qed.

(** ** The loop that draws a color *)

Lemma draw_again_false c seen :
  draw_again (Some c) seen = false -> c <> "" /\ c ∉ seen.
Proof.
  unfold draw_again. intros H. apply orb_false_iff in H as [H1 H2].
  split.
  - intros ->. discriminate.
  - intros Hin. apply py_in_elem in Hin. congruence.
Qed.

Lemma drawn_color_next w k :
  drawn_color (advance_rng w) k = drawn_color w (S k).
Proof. unfold drawn_color. simpl. now rewrite Nat.add_succ_r. Qed.

Lemma color_run self w : color self w = (Ok (drawn_color w 0), advance_rng w).
Proof. unfold color, drawn_color. now rewrite Nat.add_0_r. Qed.

Lemma draw_again_drawn w k seen :
  draw_again (Some (drawn_color w k)) seen = true <-> drawn_color w k ∈ seen.
Proof. unfold draw_again. simpl. apply py_in_elem. Qed.

Lemma while_color_stops fuel self seen c w :
  draw_again (Some c) seen = false ->
  while_color fuel self seen (Some c) w = (Ok c, w).
Proof. intros H. destruct fuel; cbn [while_color]; now rewrite H. Qed.

(** The loop draws until a color is not in [seen_colors]. *)
Lemma while_color_draws self seen :
  forall k fuel w color0,
    draw_again color0 seen = true ->
    (k < fuel)%nat ->
    (forall j, (j < k)%nat -> drawn_color w j ∈ seen) ->
    drawn_color w k ∉ seen ->
    while_color fuel self seen color0 w
    = (Ok (drawn_color w k), advance_by (S k) w).
Proof.
  induction k as [|k IH]; intros fuel w color0 Hagain Hk Hseen Hout;
    (destruct fuel as [|fuel]; [lia|]); cbn [while_color]; rewrite Hagain;
    rewrite (bind_run _ _ _ _ _ (color_run self w)).
  - apply while_color_stops.
    destruct (draw_again (Some (drawn_color w 0)) seen) eqn:E;
      [|reflexivity].
    apply draw_again_drawn in E. contradiction.
  - rewrite (IH fuel (advance_rng w)).
    + now rewrite drawn_color_next.
    + apply draw_again_drawn, Hseen. lia.
    + lia.
    + intros j Hj. rewrite drawn_color_next. apply Hseen. lia.
    + now rewrite drawn_color_next.
Qed.

Lemma while_color_from self seen :
  forall fuel color0 w c w',
    while_color fuel self seen color0 w = (Ok c, w') ->
    (color0 = Some c /\ w' = w /\ draw_again color0 seen = false)
    \/ (draw_again color0 seen = true
        /\ exists k, (k < fuel)%nat
                     /\ (forall j, (j < k)%nat -> drawn_color w j ∈ seen)
                     /\ (drawn_color w k ∉ seen)
                     /\ c = drawn_color w k
                     /\ w' = advance_by (S k) w).
Proof.
  induction fuel as [|fuel IH]; intros color0 w c w'; cbn [while_color].
  - destruct (draw_again color0 seen) eqn:E; [discriminate|].
    destruct color0 as [c0|]; [|discriminate].
    intros [= <- <-]. left. auto.
  - destruct (draw_again color0 seen) eqn:E.
    + rewrite (bind_run _ _ _ _ _ (color_run self w)).
      intros Hrun. right. split; [reflexivity|].
      apply IH in Hrun
        as [(Hc & -> & Hstop)|(Hmore & k & Hk & Hseen & Hout & -> & ->)].
      * injection Hc as <-. exists 0%nat. split; [lia|].
        split; [intros j Hj; lia|]. split; [|auto].
        intros Hin. apply draw_again_drawn in Hin. congruence.
      * exists (S k). split; [lia|]. split; [|split; [|split]].
        -- intros [|j] Hj; [now apply draw_again_drawn|].
           rewrite <- drawn_color_next. apply Hseen. lia.
        -- now rewrite <- drawn_color_next.
        -- apply drawn_color_next.
        -- reflexivity.
    + destruct color0 as [c0|]; [|discriminate].
      intros [= <- <-]. left. auto.
Qed.

(** X14.  The loop [while not color or color in seen_colors] ends with the
    first drawn color that is not in [seen_colors], having drawn that many
    times; it ends so exactly when such a color comes within the draws it
    may take. *)
Theorem while_color_contract fuel self seen w c w' :
  while_color fuel self seen None w = (Ok c, w')
  <-> exists k, (k < fuel)%nat
                /\ (forall j, (j < k)%nat -> drawn_color w j ∈ seen)
                /\ (drawn_color w k ∉ seen)
                /\ c = drawn_color w k
                /\ w' = advance_by (S k) w.
Proof.
  split.
  - intros Hrun. apply while_color_from in Hrun as [(Hc & _)|(_ & Hk)];
      [discriminate | exact Hk].
  - intros (k & Hk & Hseen & Hout & -> & ->).
    now apply while_color_draws.
Qed.

Lemma dict_without_keys {V} (d : Dict.t V) :
  (forall g, Dict.get g d = None) -> d = [].
Proof.
  destruct d as [|[k v] d]; [reflexivity|]. intros H. specialize (H k).
  simpl in H. now rewrite String.eqb_refl in H.
Qed.

(** X15.  For a registered name and a status 200 whose body is [null] or
    an empty array, [get] does not fail: it answers a [Result] of the
    endpoint with no record and no kept width. *)
Theorem get_empty_body register names self name make w :
  Dict.get name register = Some make ->
  status_code (http w (url (make (baseurl self)))) = 200 ->
  json_body (http w (url (make (baseurl self)))) = None
  \/ json_body (http w (url (make (baseurl self)))) = Some [] ->
  hash_ok w ->
  order_ok (make (baseurl self)) ->
  exists r w',
    get register names self name w = (Ok r, w')
    /\ endpoint r = make (baseurl self)
    /\ seq_of (heap w') (data r) = Some []
    /\ max_widths r = []
    /\ (forall l o, heap w !! l = Some o -> heap w' !! l = Some o).
Proof.
  intros Hreg Hst Hbody Hhash Hord. unfold get. rewrite Hreg.
  set (ep := make (baseurl self)) in *.
  set (wl := if quiet self then w else add_log INFO ("GET " ++ url ep) w).
  assert (Hlog : (if negb (quiet self) then logger INFO ("GET " ++ url ep)
                  else ret tt) w = (Ok tt, wl)).
  { unfold wl. now destruct (quiet self). }
  assert (Hwl : heap wl = heap w /\ http wl = http w
                /\ hash_order wl = hash_order w).
  { unfold wl. destruct (quiet self); simpl; auto. }
  destruct Hwl as (Hheap & Hhttp & Hhash').
  rewrite (bind_run _ _ _ _ _ Hlog).
  rewrite (bind_run _ _ _ (http w (url ep)) wl)
    by (unfold requests_get; now rewrite Hhttp).
  rewrite Hst. simpl. rewrite (bind_run _ _ _ tt wl) by reflexivity.
  assert (Hjson : exists d0 h3,
             Response_json (http w (url ep)) wl = (Ok d0, set_heap h3 wl)
             /\ records_of h3 d0 []
             /\ (forall l o, heap w !! l = Some o -> h3 !! l = Some o)).
  { destruct Hbody as [Hnone|Hsome].
    - exists PyNone, (heap wl). unfold Response_json. rewrite Hnone.
      unfold ret. rewrite set_heap_id. split; [reflexivity|].
      split; [reflexivity|]. intros l o. now rewrite Hheap.
    - destruct (Response_json_run _ wl [] Hsome)
        as (l & ls & h3 & Hrun & Hlist & Hall & Hsub & _).
      apply Forall2_nil_inv_r in Hall as ->.
      exists (PyRef l), h3. split; [exact Hrun|]. split; [exact Hlist|].
      intros l0 o. rewrite <- Hheap. apply Hsub. }
  destruct Hjson as (d0 & h3 & Hjson & Hrec & Hsub).
  rewrite (bind_run _ _ _ _ _ Hjson).
  destruct (Result_init_full (set_heap h3 wl) ep d0 [])
    as (mw & h' & d' & stored & fields & Hrun & Hseq & Hperm & _ & Hfields
        & _ & Hframe & _ & Hnone & _).
  { intros added. simpl. rewrite Hhash'. apply Hhash. }
  { exact Hord. }
  { exact Hrec. }
  { intros l Hl. now apply not_elem_of_nil in Hl. }
  apply Permutation_nil in Hperm. subst stored.
  rewrite Hrun. eexists _, _. split; [reflexivity|]. simpl.
  split; [reflexivity|]. split; [exact Hseq|]. split.
  - apply dict_without_keys. intros g. apply Hnone. left.
    intros Hg. apply Hfields in Hg as (l & _ & Hl & _).
    now apply not_elem_of_nil in Hl.
  - intros l o Hl. apply Hframe; [apply not_elem_of_nil|]. simpl.
    now apply Hsub.
Qed.

Lemma get_empty_body_witness :
  exists r w',
    get register_people ["people"] client_example "people"
      (world_serving found_nothing) = (Ok r, w')
    /\ seq_of (heap w') (data r) = Some []
    /\ max_widths r = [].
Proof.
  destruct (get_empty_body register_people ["people"] client_example
              "people"
              (fun base =>
                 {| url := base ++ "/api/people.json"; title := "People";
                    emoji := "sparkles"; skip_list := [];
                    truncate_list := []; order := keep_order |})
              (world_serving found_nothing))
    as (r & w' & Hrun & _ & Hseq & Hmw & _).
  - reflexivity.
  - reflexivity.
  - right. reflexivity.
  - intros added. simpl. split; [apply NoDup_remove_dups|].
    intros k. apply elem_of_remove_dups.
  - now apply order_ok_keep_order.
  - exists r, w'. auto.
Defined.
